(** * kum-bot: a shallow embedding of [bot.py]

    The bot is a set of asynchronous handlers registered on a Telegram
    application.  Every handler reads an update and a context, may draw from
    Python's [random] module, may call the Gemini model once, may mutate the
    process-wide dictionary [game_state], and answers through
    [reply_text].  The embedding keeps that shape: a handler is a function of
    the update and the context into a small state-and-exception monad whose
    state holds [game_state], the random source, the model and the trace of
    outbound calls.

    Python strings are represented by their UTF-8 bytes ([string]).
    Concatenation, equality, [in] and [str.replace] on code points agree with
    the same operations on bytes, because a UTF-8 encoded needle can only
    match at a code point boundary.  [str.lower] and [str.strip] are Unicode
    aware builtins; they are an interface ([StrOps]) here, with an instance
    that is exact on ASCII text. *)

From stdpp Require Import gmap strings list fin_maps pretty.

Open Scope string_scope.

(** ** Python strings *)

Module PyStr.

(** The line feed of the source's ["\n"]. *)
Definition nl : string := String (Ascii.ascii_of_nat 10) "".

(** [needle in hay]. *)
Fixpoint contains (needle hay : string) : bool :=
  String.prefix needle hay ||
  match hay with
  | "" => false
  | String _ hay' => contains needle hay'
  end.

(** [s.replace(old, new)] for a non-empty [old]: scanning from the left,
    every occurrence of [old] that does not overlap an earlier one becomes
    [new].  [skip] counts the characters of a matched occurrence that are
    still to be passed over. *)
Fixpoint replace_from (skip : nat) (old new s : string) : string :=
  match s with
  | "" => ""
  | String c s' =>
      match skip with
      | S k => replace_from k old new s'
      | O =>
          if String.prefix old s
          then new +:+ replace_from (String.length old - 1) old new s'
          else String c (replace_from 0 old new s')
      end
  end.

(** With an empty [old], Python puts [new] before every character and at the
    end. *)
Fixpoint intersperse (new s : string) : string :=
  match s with
  | "" => new
  | String c s' => new +:+ String c (intersperse new s')
  end.

Definition replace (s old new : string) : string :=
  match old with
  | "" => intersperse new s
  | _ => replace_from 0 old new s
  end.

(** [sep.join(l)]. *)
Fixpoint join (sep : string) (l : list string) : string :=
  match l with
  | [] => ""
  | [x] => x
  | x :: l' => x +:+ sep +:+ join sep l'
  end.

(** [str.lower] and [str.strip], builtins of the interpreter. *)
Class StrOps := {
  lower : string → string;
  strip : string → string
}.

(** The ASCII fragment of the two builtins. *)
Definition lower_ascii (c : Ascii.ascii) : Ascii.ascii :=
  let n := Ascii.nat_of_ascii c in
  if (65 <=? n)%nat && (n <=? 90)%nat then Ascii.ascii_of_nat (n + 32) else c.

Fixpoint ascii_lower (s : string) : string :=
  match s with
  | "" => ""
  | String c s' => String (lower_ascii c) (ascii_lower s')
  end.

(** The ASCII code points on which [str.isspace] holds: tab to carriage
    return, the four separators 28 to 31, and the space. *)
Definition is_space (c : Ascii.ascii) : bool :=
  let n := Ascii.nat_of_ascii c in
  ((9 <=? n)%nat && (n <=? 13)%nat) || ((28 <=? n)%nat && (n <=? 32)%nat).

Fixpoint lstrip (s : string) : string :=
  match s with
  | "" => ""
  | String c s' => if is_space c then lstrip s' else s
  end.

Fixpoint rstrip (s : string) : string :=
  match s with
  | "" => ""
  | String c s' =>
      match rstrip s' with
      | "" => if is_space c then "" else String c ""
      | t => String c t
      end
  end.

Definition ascii_strip (s : string) : string := rstrip (lstrip s).

Definition ascii_ops : StrOps := {| lower := ascii_lower; strip := ascii_strip |}.

End PyStr.

Export PyStr.

(** ** Effects

    What a handler can do besides computing: send a reply, call the model,
    write an error to the log, draw a random number, read and write
    [game_state], and raise. *)

Inductive event :=
  | Reply (text : string)       (* [message.reply_text(text)] *)
  | Generate (prompt : string)  (* [model.generate_content(prompt)] *)
  | LogError (msg : string).    (* [logger.error(msg)] *)

Inductive exn :=
  | AttributeError (msg : string)
  | IndexError (msg : string)
  | KeyError (msg : string)
  | GeneratorError (msg : string).

(** [str(e)]. *)
Definition str_exn (e : exn) : string :=
  match e with
  | AttributeError msg | IndexError msg | KeyError msg | GeneratorError msg => msg
  end.

(** The state of the process as far as the handlers see it.
    - [game_state] is the module-level dictionary, chat id to a dictionary of
      string fields;
    - [model] answers a prompt with the text of the response, or with the
      description of the exception that [generate_content] or the access to
      [response.text] raises;
    - [entropy] is the sequence of raw draws of the random source and [draws]
      the number of them already used;
    - [trace] lists the outbound calls made so far, oldest first.
    [reply_text] is taken to return: a delivery failure is the transport's. *)
Record world := World {
  game_state : gmap Z (gmap string string);
  model : string → string + string;
  entropy : nat → nat;
  draws : nat;
  trace : list event
}.

Inductive result (A : Type) :=
  | Ret (a : A)
  | Raise (e : exn).
Arguments Ret {A} a.
Arguments Raise {A} e.

Definition Py (A : Type) : Type := world → result A * world.

#[global] Instance Py_ret : MRet Py := λ A a w, (Ret a, w).

#[global] Instance Py_bind : MBind Py := λ A B f m w,
  match m w with
  | (Ret a, w') => f a w'
  | (Raise e, w') => (Raise e, w')
  end.

Definition raise {A} (e : exn) : Py A := λ w, (Raise e, w).

(** [try: body except Exception as e: handler e]. *)
Definition try_except {A} (body : Py A) (handler : exn → Py A) : Py A := λ w,
  match body w with
  | (Raise e, w') => handler e w'
  | r => r
  end.

Definition emit (e : event) : Py unit := λ w,
  (Ret tt, World (game_state w) (model w) (entropy w) (draws w) (trace w ++ [e])).

Definition reply_text (text : string) : Py unit := emit (Reply text).

Definition logger_error (msg : string) : Py unit := emit (LogError msg).

(** [model.generate_content(prompt).text]: the call is recorded whether it
    succeeds or not. *)
Definition generate_content (prompt : string) : Py string := λ w,
  let w' := World (game_state w) (model w) (entropy w) (draws w)
                  (trace w ++ [Generate prompt]) in
  match model w prompt with
  | inl text => (Ret text, w')
  | inr msg => (Raise (GeneratorError msg), w')
  end.

(** An index below [n], [n] positive, from the next raw draw. *)
Definition randbelow (n : nat) : Py nat := λ w,
  (Ret (entropy w (draws w) mod n),
   World (game_state w) (model w) (entropy w) (S (draws w)) (trace w)).

(** [random.randint(a, b)]. *)
Definition random_randint (a b : Z) : Py Z :=
  k ← randbelow (Z.to_nat (b - a + 1)); mret (a + Z.of_nat k)%Z.

(** [random.choice(seq)]. *)
Definition random_choice {A} (seq : list A) : Py A :=
  match seq with
  | [] => raise (IndexError "Cannot choose from an empty sequence")
  | _ =>
      i ← randbelow (length seq);
      match seq !! i with
      | Some x => mret x
      | None => raise (IndexError "list index out of range")
      end
  end.

(** [seq[i]] with Python's negative indices. *)
Definition getitem {A} (seq : list A) (i : Z) : Py A :=
  let n := Z.of_nat (length seq) in
  let j := if (i <? 0)%Z then (i + n)%Z else i in
  if ((0 <=? j)%Z && (j <? n)%Z)%bool
  then match seq !! Z.to_nat j with
       | Some x => mret x
       | None => raise (IndexError "list index out of range")
       end
  else raise (IndexError "list index out of range").

(** [d[k]] on a dictionary with string keys. *)
Definition dict_getitem (d : gmap string string) (k : string) : Py string :=
  match d !! k with
  | Some v => mret v
  | None => raise (KeyError k)
  end.

Definition read_game_state : Py (gmap Z (gmap string string)) := λ w,
  (Ret (game_state w), w).

Definition write_game_state (gs : gmap Z (gmap string string)) : Py unit := λ w,
  (Ret tt, World gs (model w) (entropy w) (draws w) (trace w)).

(** [game_state[chat_id]]. *)
Definition game_state_getitem (chat_id : Z) : Py (gmap string string) :=
  gs ← read_game_state;
  match gs !! chat_id with
  | Some d => mret d
  | None => raise (KeyError (pretty chat_id))
  end.

(** [game_state[chat_id] = d]; with [d] the dictionary already stored there,
    this is also what a mutation of that dictionary in place amounts to. *)
Definition game_state_setitem (chat_id : Z) (d : gmap string string) : Py unit :=
  gs ← read_game_state;
  write_game_state (<[chat_id := d]> gs).

(** [del d[k]], returning the dictionary without the key. *)
Definition dict_delitem (d : gmap string string) (k : string) : Py (gmap string string) :=
  match d !! k with
  | Some _ => mret (delete k d)
  | None => raise (KeyError k)
  end.

(** ** Updates and contexts *)

(** A message: its text, and the sender id of the message it replies to
    ([reply_to_message.from_user.id]); both the replied-to message and its
    [from_user] are optional. *)
Record message := Message {
  text : option string;
  reply_to_message : option (option Z)
}.

Record update := Update {
  update_message : message;
  effective_chat_id : Z
}.

(** [context.args], [context.bot.username] and [context.bot.id]. *)
Record context := Ctx {
  args : list string;
  bot_username : string;
  bot_id : Z
}.

(** ** Handlers *)

Section Handlers.
Context {ops : StrOps}.

Definition start (u : update) (c : context) : Py unit :=
  reply_text
    ("🤖 Hello! I'm a Gemini-powered bot!" +:+ nl +:+ nl +:+
     "Commands:" +:+ nl +:+
     "/help - Show all commands" +:+ nl +:+
     "/ask [question] - Ask me anything" +:+ nl +:+
     "/dice - Roll a dice" +:+ nl +:+
     "/8ball [question] - Magic 8-ball" +:+ nl +:+
     "/trivia - Random trivia question" +:+ nl +:+
     "/rps [rock/paper/scissors] - Play Rock Paper Scissors" +:+ nl +:+
     "/flip - Flip a coin" +:+ nl +:+ nl +:+
     "In groups, mention me or reply to my messages to chat!").

Definition help_command (u : update) (c : context) : Py unit :=
  reply_text
    ("📚 Available Commands:" +:+ nl +:+ nl +:+
     "🤖 AI Commands:" +:+ nl +:+
     "/ask [question] - Ask Gemini anything" +:+ nl +:+ nl +:+
     "🎮 Mini-Games:" +:+ nl +:+
     "/dice - Roll a 6-sided dice" +:+ nl +:+
     "/flip - Flip a coin" +:+ nl +:+
     "/8ball [question] - Ask the magic 8-ball" +:+ nl +:+
     "/trivia - Get a random trivia question" +:+ nl +:+
     "/rps [choice] - Rock, Paper, Scissors" +:+ nl +:+
     "  Example: /rps rock" +:+ nl +:+ nl +:+
     "💬 Group Chat:" +:+ nl +:+
     "Mention @botname or reply to my messages to chat with Gemini!").

Definition ask_gemini (u : update) (c : context) : Py unit :=
  match args c with
  | [] => reply_text "Please provide a question! Example: /ask What is Python?"
  | _ =>
      let question := join " " (args c) in
      reply_text "🤔 Thinking...";;
      try_except
        (response ← generate_content question;
         reply_text response)
        (λ e,
           logger_error ("Gemini API error: " +:+ str_exn e);;
           reply_text ("❌ Error: " +:+ str_exn e))
  end.

Definition handle_group_message (u : update) (c : context) : Py unit :=
  let message := update_message u in
  let handle := "@" +:+ bot_username c in
  let is_mentioned :=
    match text message with
    | Some t => if decide (t = "") then false else contains handle t
    | None => false
    end in
  is_reply_to_bot ←
    match reply_to_message message with
    | None => mret false
    | Some None =>
        raise (AttributeError "'NoneType' object has no attribute 'id'")
    | Some (Some sender) => mret (bool_decide (sender = bot_id c))
    end;
  if negb (is_mentioned || is_reply_to_bot) then mret tt
  else
    text ←
      match text message with
      | Some t => mret (strip (replace t handle ""))
      | None =>
          raise (AttributeError "'NoneType' object has no attribute 'replace'")
      end;
    if decide (text = "") then reply_text "Yes? How can I help you?"
    else
      try_except
        (response ← generate_content text;
         reply_text response)
        (λ e,
           logger_error ("Gemini API error: " +:+ str_exn e);;
           reply_text ("❌ Sorry, I encountered an error: " +:+ str_exn e)).

Definition dice_faces : list string := ["⚀"; "⚁"; "⚂"; "⚃"; "⚄"; "⚅"].

Definition roll_dice (u : update) (c : context) : Py unit :=
  result ← random_randint 1 6;
  dice_emoji ← getitem dice_faces (result - 1);
  reply_text ("🎲 You rolled: " +:+ dice_emoji +:+ " (" +:+ pretty result +:+ ")").

Definition flip_coin (u : update) (c : context) : Py unit :=
  result ← random_choice ["Heads"; "Tails"];
  let emoji := if decide (result = "Heads") then "🪙" else "🔘" in
  reply_text (emoji +:+ " The coin landed on: **" +:+ result +:+ "**!").

Definition responses : list string :=
  [ "Yes, definitely!"; "It is certain."; "Without a doubt.";
    "You may rely on it."; "As I see it, yes."; "Most likely.";
    "Outlook good."; "Signs point to yes."; "Reply hazy, try again.";
    "Ask again later."; "Better not tell you now."; "Cannot predict now.";
    "Concentrate and ask again."; "Don't count on it."; "My reply is no.";
    "My sources say no."; "Outlook not so good."; "Very doubtful." ].

Definition magic_8ball (u : update) (c : context) : Py unit :=
  match args c with
  | [] =>
      reply_text ("🔮 Ask the magic 8-ball a yes/no question!" +:+ nl +:+
                  "Example: /8ball Will I win?")
  | _ =>
      result ← random_choice responses;
      reply_text ("🔮 The magic 8-ball says: **" +:+ result +:+ "**")
  end.

Definition choices : list string := ["rock"; "paper"; "scissors"].

Definition emoji_map : gmap string string :=
  list_to_map [("rock", "✊"); ("paper", "✋"); ("scissors", "✌️")].

Definition rps_usage : string :=
  "✊✋✌️ Choose rock, paper, or scissors!" +:+ nl +:+ "Example: /rps rock".

Definition rock_paper_scissors (u : update) (c : context) : Py unit :=
  match args c with
  | [] => reply_text rps_usage
  | arg0 :: _ =>
      if negb (bool_decide (lower arg0 ∈ choices)) then reply_text rps_usage
      else
        let user_choice := lower arg0 in
        bot_choice ← random_choice choices;
        let result :=
          if decide (user_choice = bot_choice) then "It's a tie! 🤝"
          else if (bool_decide (user_choice = "rock") && bool_decide (bot_choice = "scissors"))
                  || (bool_decide (user_choice = "paper") && bool_decide (bot_choice = "rock"))
                  || (bool_decide (user_choice = "scissors") && bool_decide (bot_choice = "paper"))
          then "You win! 🎉"
          else "I win! 🤖" in
        user_emoji ← dict_getitem emoji_map user_choice;
        bot_emoji ← dict_getitem emoji_map bot_choice;
        reply_text ("You chose: " +:+ user_emoji +:+ " " +:+ user_choice +:+ nl +:+
                    "I chose: " +:+ bot_emoji +:+ " " +:+ bot_choice +:+ nl +:+ nl +:+
                    result)
  end.

(** The catalog of [trivia]: the ["q"] and ["a"] fields of each entry. *)
Definition questions : list (string * string) :=
  [ ("What is the capital of France?", "Paris");
    ("What is 2 + 2?", "4");
    ("What is the largest planet in our solar system?", "Jupiter");
    ("Who painted the Mona Lisa?", "Leonardo da Vinci");
    ("What is the smallest prime number?", "2");
    ("In what year did World War II end?", "1945");
    ("What is the chemical symbol for gold?", "Au");
    ("How many continents are there?", "7") ].

(** The test of line 199:
    [chat_id in game_state and 'trivia_answer' in game_state[chat_id]]. *)
Definition answering (gs : gmap Z (gmap string string)) (chat_id : Z) : bool :=
  match gs !! chat_id with
  | Some d => bool_decide (is_Some (d !! "trivia_answer"))
  | None => false
  end.

(** Lines 213 to 220, reached when the test of line 199 or the one of line
    200 fails. *)
Definition new_question (chat_id : Z) : Py unit :=
  question_data ← random_choice questions;
  game_state_setitem chat_id {["trivia_answer" := question_data.2]};;
  reply_text ("❓ Trivia Question:" +:+ nl +:+ nl +:+ question_data.1 +:+ nl +:+ nl +:+
              "Reply with: /trivia [your answer]").

Definition trivia (u : update) (c : context) : Py unit :=
  let chat_id := effective_chat_id u in
  gs ← read_game_state;
  if answering gs chat_id then
    match args c with
    | _ :: _ =>
        let user_answer := strip (join " " (args c)) in
        session ← game_state_getitem chat_id;
        correct_answer ← dict_getitem session "trivia_answer";
        (if decide (lower user_answer = lower correct_answer)
         then reply_text "✅ Correct! Well done! 🎉"
         else reply_text ("❌ Wrong! The correct answer was: " +:+ correct_answer));;
        session ← game_state_getitem chat_id;
        session' ← dict_delitem session "trivia_answer";
        game_state_setitem chat_id session';;
        reply_text "Type /trivia for another question!"
    | [] => new_question chat_id
    end
  else new_question chat_id.

(** The command handlers that [main] registers, by command name.  Free text
    in a group goes to [handle_group_message]. *)
Definition command_handlers : list (string * (update → context → Py unit)) :=
  [ ("start", start); ("help", help_command); ("ask", ask_gemini);
    ("dice", roll_dice); ("flip", flip_coin); ("8ball", magic_8ball);
    ("rps", rock_paper_scissors); ("trivia", trivia) ].

End Handlers.

(** ** Reading the outcome of a handler *)

(** The world after some more outbound calls, after one more draw, and with
    another store. *)
Definition sent (w : world) (es : list event) : world :=
  World (game_state w) (model w) (entropy w) (draws w) (trace w ++ es).

Definition drawn (w : world) : world :=
  World (game_state w) (model w) (entropy w) (S (draws w)) (trace w).

Definition stored (gs : gmap Z (gmap string string)) (w : world) : world :=
  World gs (model w) (entropy w) (draws w) (trace w).

(** The texts handed to the Responder and the prompts handed to the
    Generator, in order. *)
Definition replies (es : list event) : list string :=
  omap (λ e, match e with Reply t => Some t | _ => None end) es.

Definition generator_calls (es : list event) : list string :=
  omap (λ e, match e with Generate p => Some p | _ => None end) es.

(** The raw draw a handler is about to consume, reduced below [n]. *)
Definition next_draw (w : world) (n : nat) : nat := entropy w (draws w) mod n.

(** ** The standard rules of rock, paper, scissors *)

Inductive beats : string → string → Prop :=
  | rock_beats_scissors : beats "rock" "scissors"
  | scissors_beats_paper : beats "scissors" "paper"
  | paper_beats_rock : beats "paper" "rock".

(** The message of [rock_paper_scissors] for a given pair of choices, their
    glyphs and a verdict. *)
Definition rps_message (user_emoji user_choice bot_emoji bot_choice verdict : string) : string :=
  "You chose: " +:+ user_emoji +:+ " " +:+ user_choice +:+ nl +:+
  "I chose: " +:+ bot_emoji +:+ " " +:+ bot_choice +:+ nl +:+ nl +:+ verdict.

(** ** The session store seen as a state machine *)

(** A conversation awaits an answer when its entry holds an expected answer. *)
Definition awaiting_answer (gs : gmap Z (gmap string string)) (chat_id : Z) (a : string) : Prop :=
  ∃ d, gs !! chat_id = Some d ∧ d !! "trivia_answer" = Some a.

(** It is idle otherwise, which the store can express in two ways: no entry,
    or an entry without the field. *)
Definition idle (gs : gmap Z (gmap string string)) (chat_id : Z) : Prop :=
  gs !! chat_id = None ∨ ∃ d, gs !! chat_id = Some d ∧ d !! "trivia_answer" = None.

(** The entries the handlers ever store: a pending answer and nothing else, or
    nothing at all. *)
Definition session_shaped (gs : gmap Z (gmap string string)) : Prop :=
  ∀ k d, gs !! k = Some d → d = ∅ ∨ ∃ a, d = {["trivia_answer" := a]}.

(** The text of a trivia question as it is sent. *)
Definition question_message (q : string) : string :=
  "❓ Trivia Question:" +:+ nl +:+ nl +:+ q +:+ nl +:+ nl +:+
  "Reply with: /trivia [your answer]".

(** The verdict on a submitted answer. *)
Definition verdict_message {ops : StrOps} (user_answer correct_answer : string) : string :=
  if decide (lower user_answer = lower correct_answer)
  then "✅ Correct! Well done! 🎉"
  else "❌ Wrong! The correct answer was: " +:+ correct_answer.

(** The states of the running bot: it starts with an empty store and an
    empty trace; every event runs one registered handler; between two events
    the model and the random source may have changed. *)
Inductive reachable {ops : StrOps} : world → Prop :=
  | reachable_start m e n : reachable (World ∅ m e n [])
  | reachable_command w name h u c :
      reachable w → (name, h) ∈ command_handlers → reachable (h u c w).2
  | reachable_message w u c :
      reachable w → reachable (handle_group_message u c w).2
  | reachable_outside w m e :
      reachable w → reachable (World (game_state w) m e (draws w) (trace w)).

(** What the generation path adds to the trace for a prompt, given the
    outcome of the call: the call, then the response relayed as it is, or the
    error logged and reported after [apology]. *)
Definition relay (apology prompt : string) (outcome : string + string) : list event :=
  Generate prompt ::
  match outcome with
  | inl response => [Reply response]
  | inr description =>
      [LogError ("Gemini API error: " +:+ description); Reply (apology +:+ description)]
  end.

(** A group message with text [t] passes the test of line 97: the sender of
    the replied-to message, if there is one, is known, and the text holds the
    handle or the reply is to the bot. *)
Definition routed_to_generation (u : update) (c : context) (t : string) : Prop :=
  text (update_message u) = Some t
  ∧ reply_to_message (update_message u) ≠ Some None
  ∧ (contains ("@" +:+ bot_username c) t = true
     ∨ reply_to_message (update_message u) = Some (Some (bot_id c))).

(** A computation that leaves [game_state] as it found it. *)
Definition keeps_store {A} (m : Py A) : Prop :=
  ∀ w, game_state (m w).2 = game_state w.

(** ** Further vocabulary *)

(** A handler run from [w] returns normally, leaves the store [gs'], has
    used [k] draws and has added the outbound calls [es]; the model and the
    random source are as before. *)
Definition runs_to (m : Py unit) (w : world)
    (gs' : gmap Z (gmap string string)) (k : nat) (es : list event) : Prop :=
  m w = (Ret tt, World gs' (model w) (entropy w) (k + draws w) (trace w ++ es)).

(** Every entry of the store is empty or holds the answer of a question of
    the catalog. *)
Definition catalog_sessions (gs : gmap Z (gmap string string)) : Prop :=
  ∀ k d, gs !! k = Some d →
    d = ∅ ∨ ∃ q a, (q, a) ∈ questions ∧ d = {["trivia_answer" := a]}.

(** A text made of ASCII white space only. *)
Fixpoint all_space (s : string) : bool :=
  match s with
  | "" => true
  | String c s' => is_space c && all_space s'
  end.

(** ** Start-up *)

(** What [main] does with the two secrets read from the environment
    ([os.environ.get] gives [None] for a variable that is not set): it logs
    an error and returns, or it builds the application for the token,
    registers the handlers, logs that the bot starts and polls. *)
Inductive startup :=
  | Refused (error : string)
  | Polling (token : string)
            (commands : list (string * (update → context → Py unit)))
            (messages : update → context → Py unit)
            (info : string).

Section Main.
Context {ops : StrOps}.

(** [not s] for an optional string: [None] and the empty string are false. *)
Definition falsy (s : option string) : bool :=
  match s with
  | None | Some "" => true
  | Some _ => false
  end.

Definition main (TELEGRAM_TOKEN GEMINI_API_KEY : option string) : startup :=
  if falsy TELEGRAM_TOKEN
  then Refused "TELEGRAM_BOT_TOKEN not found in environment variables!"
  else if falsy GEMINI_API_KEY
  then Refused "GEMINI_API_KEY not found in environment variables!"
  else Polling (default "" TELEGRAM_TOKEN) command_handlers handle_group_message
               "Bot starting...".

End Main.

(** ** A concrete setting *)

Module Run.

(** A setting to run the handlers in: chat 7, a bot called
    [bot] with id 1, a model that echoes or fails, a constant random source. *)
Definition chat : update := Update (Message None None) 7.
Definition with_args (l : list string) : context := Ctx l "bot" 1.
Definition group_text (t : string) (reply_to : option (option Z)) : update :=
  Update (Message (Some t) reply_to) (-100).
Definition echo : string → string + string := λ p, inl ("echo: " +:+ p).
Definition failing : string → string + string := λ _, inr "429 quota exceeded".
Definition fresh (m : string → string + string) (r : nat) : world :=
  World ∅ m (λ _, r) 0 [].

End Run.

Import Run.

(** * Properties *)

(** ** Strings *)

Lemma prefix_refl s : String.prefix s s = true.
Proof.
  induction s as [|a s IH]; simpl; [done|].
  destruct (Ascii.ascii_dec a a); [done | congruence].
Qed.

Lemma prefix_app s t : String.prefix s (s +:+ t) = true.
Proof.
  induction s as [|a s IH]; simpl; [by destruct t|].
  destruct (Ascii.ascii_dec a a); [done | congruence].
Qed.

Lemma contains_prefix s t : String.prefix s t = true → contains s t = true.
Proof. intros H. destruct t; simpl in *; rewrite H; done. Qed.

Lemma contains_app_r p s : contains s (p +:+ s) = true.
Proof.
  induction p as [|a p IH]; simpl.
  - apply contains_prefix, prefix_refl.
  - rewrite IH. apply orb_true_r.
Qed.

Lemma contains_app_l p s t : contains s t = true → contains s (p +:+ t) = true.
Proof.
  intros H. induction p as [|a p IH]; simpl; [done|].
  rewrite IH. apply orb_true_r.
Qed.

Lemma contains_app_mid p s q : contains s (p +:+ s +:+ q) = true.
Proof. apply contains_app_l, contains_prefix, prefix_app. Qed.

Lemma replace_from_skip x old new s :
  replace_from (String.length x) old new (x +:+ s) = replace_from 0 old new s.
Proof.
  induction x as [|a x IH]; simpl.
  - by destruct s.
  - apply IH.
Qed.

(** An occurrence at the front is replaced, and the scan resumes after it. *)
Lemma replace_occurrence a old new s :
  replace (String a old +:+ s) (String a old) new
  = new +:+ replace s (String a old) new.
Proof.
  unfold replace. change (String a old +:+ s) with (String a (old +:+ s)).
  cbn [replace_from].
  change (String a (old +:+ s)) with (String a old +:+ s).
  rewrite prefix_app. f_equal.
  replace (String.length (String a old) - 1) with (String.length old)
    by (cbn [String.length]; lia).
  apply replace_from_skip.
Qed.

(** A character that does not start an occurrence is kept. *)
Lemma replace_keep c a old new s :
  String.prefix (String a old) (String c s) = false →
  replace (String c s) (String a old) new
  = String c (replace s (String a old) new).
Proof. intros H. unfold replace. cbn [replace_from]. by rewrite H. Qed.

Lemma replace_empty old new : replace "" old new = match old with "" => new | _ => "" end.
Proof. by destruct old. Qed.

(** A text without any occurrence is left as it is. *)
Lemma replace_absent a old new s :
  contains (String a old) s = false → replace s (String a old) new = s.
Proof.
  induction s as [|c s IH]; [done|].
  intros H. cbn [contains] in H. apply orb_false_iff in H as [Hp Hc].
  rewrite replace_keep by done. by rewrite IH.
Qed.

(** The operations on the inputs Python documents or the handlers meet. *)
Example replace_every_mention :
  replace "hey @bot, tell @bot a joke" "@bot" "" = "hey , tell  a joke".
Proof. reflexivity. Qed.

Example replace_leftmost_first : replace "aaa" "aa" "b" = "ba".
Proof. reflexivity. Qed.

Example replace_not_repeated : replace "@b@botot" "@bot" "" = "@bot".
Proof. reflexivity. Qed.

Example strip_both_ends : ascii_strip ("  hello there " +:+ nl) = "hello there".
Proof. reflexivity. Qed.

Example lower_letters_only : ascii_lower "Leonardo da Vinci, 1945!" = "leonardo da vinci, 1945!".
Proof. reflexivity. Qed.

Example join_args : join " " ["What"; "is"; "Python?"] = "What is Python?".
Proof. reflexivity. Qed.

(** ** The monad *)

Lemma bind_ret {A B} (m : Py A) (k : A → Py B) w a w' :
  m w = (Ret a, w') → (m ≫= k) w = k a w'.
Proof. intros H. unfold mbind, Py_bind. by rewrite H. Qed.

Lemma sent_sent w es es' : sent (sent w es) es' = sent w (es ++ es').
Proof. unfold sent; simpl. by rewrite app_assoc. Qed.

Lemma next_draw_lt w n : n ≠ 0 → next_draw w n < n.
Proof. intros. unfold next_draw. by apply Nat.mod_upper_bound. Qed.

(** A choice among a non-empty sequence returns the element at the drawn
    index and uses one draw. *)
Lemma random_choice_run {A} (seq : list A) w :
  seq ≠ [] →
  ∃ x, seq !! next_draw w (length seq) = Some x
       ∧ random_choice seq w = (Ret x, drawn w).
Proof.
  intros Hne.
  destruct (lookup_lt_is_Some_2 seq (next_draw w (length seq))) as [x Hx].
  { apply next_draw_lt. destruct seq; [done | simpl; lia]. }
  exists x. split; [done|].
  destruct seq as [|y seq]; [done|].
  unfold random_choice, next_draw in *.
  unfold mbind, Py_bind, randbelow. cbn beta iota. 
  rewrite Hx. done.
Qed.

(** ** Mini-games *)

(** C8.  Whatever the random source draws, [roll_dice] replies with a number
    from 1 to 6, printed as one of the digits 1 to 6, next to the glyph that
    [dice_faces] holds for that number, and [flip_coin] replies with Heads or
    Tails; each uses one draw and sends one reply. *)
Theorem dice_and_coin_ranges (u : update) (c : context) (w : world) :
  (∃ (n : Z) (glyph : string),
      (1 ≤ n ≤ 6)%Z
      ∧ dice_faces !! Z.to_nat (n - 1) = Some glyph
      ∧ pretty n ∈ ["1"; "2"; "3"; "4"; "5"; "6"]
      ∧ roll_dice u c w
        = (Ret tt, sent (drawn w)
                     [Reply ("🎲 You rolled: " +:+ glyph +:+ " (" +:+ pretty n +:+ ")")]))
  ∧ (∃ result : string,
      result ∈ ["Heads"; "Tails"]
      ∧ flip_coin u c w
        = (Ret tt, sent (drawn w)
                     [Reply ((if decide (result = "Heads") then "🪙" else "🔘")
                             +:+ " The coin landed on: **" +:+ result +:+ "**!")])).
Proof.
  split.
  - pose proof (next_draw_lt w 6 ltac:(done)) as Hk.
    exists (1 + Z.of_nat (next_draw w 6))%Z.
    assert (Hrun : ∀ k, next_draw w 6 = k → k < 6 →
      ∃ glyph, dice_faces !! Z.to_nat (1 + Z.of_nat k - 1) = Some glyph
        ∧ pretty (1 + Z.of_nat k)%Z ∈ ["1"; "2"; "3"; "4"; "5"; "6"]
        ∧ roll_dice u c w = (Ret tt, sent (drawn w)
            [Reply ("🎲 You rolled: " +:+ glyph +:+ " (" +:+ pretty (1 + Z.of_nat k)%Z +:+ ")")])).
    { intros k Hd Hlt. unfold roll_dice, random_randint.
      unfold mbind, Py_bind, randbelow, mret, Py_ret. cbn beta iota.
      change (Z.to_nat (6 - 1 + 1)) with 6. fold (next_draw w 6). rewrite Hd.
      do 6 (destruct k as [|k]; [eexists; split; [reflexivity|]; split; [set_solver|reflexivity]|]).
      lia. }
    destruct (Hrun _ eq_refl Hk) as (glyph & ? & ? & ?).
    exists glyph. split; [lia|]. done.
  - destruct (random_choice_run ["Heads"; "Tails"] w ltac:(done)) as (x & Hx & Hrun).
    exists x. split; [by eapply list_elem_of_lookup_2|].
    unfold flip_coin. by rewrite (bind_ret _ _ _ _ _ Hrun).
Qed.

(** C10.  With a non-empty argument list the reply of [magic_8ball] does not
    depend on the arguments: two calls with any two non-empty argument lists
    in the same world, hence with the same draw, have the same outcome, and
    the phrase is the one the draw selects among the 18 of [responses]. *)
Theorem magic_8ball_ignores_question (u1 u2 : update) (c1 c2 : context) (w : world) :
  args c1 ≠ [] → args c2 ≠ [] →
  magic_8ball u1 c1 w = magic_8ball u2 c2 w
  ∧ length responses = 18
  ∧ ∃ phrase, responses !! next_draw w 18 = Some phrase
      ∧ magic_8ball u1 c1 w
        = (Ret tt, sent (drawn w) [Reply ("🔮 The magic 8-ball says: **" +:+ phrase +:+ "**")]).
Proof.
  intros H1 H2.
  destruct (random_choice_run responses w ltac:(done)) as (x & Hx & Hrun).
  assert (Hgo : ∀ u c, args c ≠ [] → magic_8ball u c w
     = (Ret tt, sent (drawn w) [Reply ("🔮 The magic 8-ball says: **" +:+ x +:+ "**")])).
  { intros u c Hc. unfold magic_8ball. destruct (args c); [done|].
    by rewrite (bind_ret _ _ _ _ _ Hrun). }
  split; [by rewrite !Hgo|]. split; [done|].
  exists x. split; [done | by apply Hgo].
Qed.


(** *** Rock, paper, scissors *)

Lemma choices_cases (s : string) :
  s ∈ choices → s = "rock" ∨ s = "paper" ∨ s = "scissors".
Proof.
  unfold choices. rewrite !elem_of_cons, elem_of_nil. tauto.
Qed.

Lemma beats_irrefl s : ¬ beats s s.
Proof. intros H. inversion H. Qed.

Lemma beats_asym s t : beats s t → ¬ beats t s.
Proof. intros H1 H2. destruct H1; inversion H2. Qed.

(** Two valid choices are equal, or one beats the other. *)
Lemma beats_total s t : s ∈ choices → t ∈ choices → s = t ∨ beats s t ∨ beats t s.
Proof.
  intros Hs Ht.
  destruct (choices_cases _ Hs) as [-> | [-> | ->]],
           (choices_cases _ Ht) as [-> | [-> | ->]];
    auto using beats.
Qed.

Section RPS.
Context {ops : StrOps}.

Lemma rps_invalid (u : update) (c : context) (w : world) :
  (args c = [] ∨ ∃ arg0 rest, args c = arg0 :: rest ∧ lower arg0 ∉ choices) →
  rock_paper_scissors u c w = (Ret tt, sent w [Reply rps_usage]).
Proof.
  intros [H | (arg0 & rest & H & Hn)]; unfold rock_paper_scissors; rewrite H; [done|].
  by rewrite bool_decide_eq_false_2.
Qed.

Lemma rps_valid (u : update) (c : context) (w : world) arg0 rest bot_choice :
  args c = arg0 :: rest → lower arg0 ∈ choices →
  choices !! next_draw w 3 = Some bot_choice →
  ∃ user_emoji bot_emoji verdict,
    emoji_map !! lower arg0 = Some user_emoji
    ∧ emoji_map !! bot_choice = Some bot_emoji
    ∧ rock_paper_scissors u c w
      = (Ret tt, sent (drawn w)
                   [Reply (rps_message user_emoji (lower arg0) bot_emoji bot_choice verdict)])
    ∧ (lower arg0 = bot_choice → verdict = "It's a tie! 🤝")
    ∧ (beats (lower arg0) bot_choice → verdict = "You win! 🎉")
    ∧ (beats bot_choice (lower arg0) → verdict = "I win! 🤖").
Proof.
  intros Hargs Hu Hb.
  destruct (random_choice_run choices w ltac:(done)) as (x & Hx & Hrun).
  change (length choices) with 3 in Hx. rewrite Hb in Hx. injection Hx as <-.
  assert (Hbc : bot_choice ∈ choices) by (by eapply list_elem_of_lookup_2).
  unfold rock_paper_scissors. rewrite Hargs.
  rewrite bool_decide_eq_true_2 by done. cbn [negb].
  rewrite (bind_ret _ _ _ _ _ Hrun).
  destruct (choices_cases _ Hu) as [-> | [-> | ->]],
           (choices_cases _ Hbc) as [-> | [-> | ->]];
    (do 3 eexists; split; [reflexivity|]; split; [reflexivity|];
     split; [reflexivity|];
     split; [intros; try discriminate; reflexivity|];
     split; intros Hw; inversion Hw; reflexivity).
Qed.

(** C7.  Without a choice, or with a choice whose lowercase form is not rock,
    paper or scissors, [rock_paper_scissors] replies with the usage hint.
    With a valid choice, for every choice of the bot, the reply shows both
    choices and a verdict that follows the standard rules: a tie for equal
    choices, "You win" when the user's choice beats the bot's, "I win" when
    the bot's beats the user's; one of the three always applies. *)
Theorem rock_paper_scissors_rules (u : update) (c : context) (w : world) :
  ((args c = [] ∨ ∃ arg0 rest, args c = arg0 :: rest ∧ lower arg0 ∉ choices) →
   rock_paper_scissors u c w = (Ret tt, sent w [Reply rps_usage]))
  ∧ (∀ arg0 rest bot_choice,
       args c = arg0 :: rest → lower arg0 ∈ choices →
       choices !! next_draw w 3 = Some bot_choice →
       ∃ user_emoji bot_emoji verdict,
         rock_paper_scissors u c w
         = (Ret tt, sent (drawn w)
                      [Reply (rps_message user_emoji (lower arg0) bot_emoji bot_choice verdict)])
         ∧ (lower arg0 = bot_choice → verdict = "It's a tie! 🤝")
         ∧ (beats (lower arg0) bot_choice → verdict = "You win! 🎉")
         ∧ (beats bot_choice (lower arg0) → verdict = "I win! 🤖")
         ∧ (lower arg0 = bot_choice ∨ beats (lower arg0) bot_choice
            ∨ beats bot_choice (lower arg0)))
  ∧ (∀ arg0 rest, args c = arg0 :: rest → lower arg0 ∈ choices →
       ∃ bot_choice, choices !! next_draw w 3 = Some bot_choice).
Proof.
  split; [apply rps_invalid|]. split.
  - intros arg0 rest bot_choice Hargs Hvalid Hbot.
    destruct (rps_valid u c w arg0 rest bot_choice Hargs Hvalid Hbot)
      as (ue & be & verdict & _ & _ & Hrun & Htie & Hwin & Hlose).
    exists ue, be, verdict. repeat (split; [done|]).
    apply beats_total; [done|]. by eapply list_elem_of_lookup_2.
  - intros arg0 rest _ _. apply lookup_lt_is_Some_2.
    by apply (next_draw_lt w 3).
Qed.

End RPS.

(** ** Trivia *)

Lemma answering_true gs chat_id :
  answering gs chat_id = true ↔ ∃ a, awaiting_answer gs chat_id a.
Proof.
  unfold answering, awaiting_answer. split.
  - destruct (gs !! chat_id) as [d|]; [|done].
    intros [a Ha]%bool_decide_eq_true. eauto.
  - intros (a & d & -> & Ha). apply bool_decide_eq_true. eauto.
Qed.

Lemma answering_false gs chat_id :
  answering gs chat_id = false ↔ idle gs chat_id.
Proof.
  unfold answering, idle. split.
  - destruct (gs !! chat_id) as [d|]; [|by left].
    intros H%bool_decide_eq_false. right. exists d. split; [done|].
    by apply eq_None_not_Some.
  - intros [-> | (d & -> & Hd)]; [done|].
    apply bool_decide_eq_false. rewrite Hd. by intros [? ?].
Qed.

Lemma idle_not_awaiting gs chat_id a :
  idle gs chat_id → ¬ awaiting_answer gs chat_id a.
Proof.
  intros Hi%answering_false Ha.
  assert (answering gs chat_id = true) by (apply answering_true; eauto).
  congruence.
Qed.

Lemma new_question_run (chat_id : Z) (w : world) :
  ∃ q a, questions !! next_draw w 8 = Some (q, a)
    ∧ new_question chat_id w
      = (Ret tt,
         sent (stored (<[chat_id := {["trivia_answer" := a]}]> (game_state w)) (drawn w))
              [Reply (question_message q)]).
Proof.
  destruct (random_choice_run questions w ltac:(done)) as ([q a] & Hx & Hrun).
  exists q, a. split; [done|].
  unfold new_question. by rewrite (bind_ret _ _ _ _ _ Hrun).
Qed.

Section Trivia.
Context {ops : StrOps}.

Lemma trivia_idle (u : update) (c : context) (w : world) :
  idle (game_state w) (effective_chat_id u) →
  trivia u c w = new_question (effective_chat_id u) w.
Proof.
  intros H%answering_false. unfold trivia.
  unfold mbind at 1, Py_bind at 1, read_game_state. by rewrite H.
Qed.

Lemma trivia_no_args (u : update) (c : context) (w : world) :
  args c = [] → trivia u c w = new_question (effective_chat_id u) w.
Proof.
  intros H. unfold trivia.
  unfold mbind at 1, Py_bind at 1, read_game_state. cbn beta iota.
  rewrite H. by destruct (answering _ _).
Qed.

Lemma trivia_submit (u : update) (c : context) (w : world) d a :
  game_state w !! effective_chat_id u = Some d →
  d !! "trivia_answer" = Some a →
  args c ≠ [] →
  trivia u c w
  = (Ret tt,
     sent (stored (<[effective_chat_id u := delete "trivia_answer" d]> (game_state w)) w)
          [Reply (verdict_message (strip (join " " (args c))) a);
           Reply "Type /trivia for another question!"]).
Proof.
  intros Hd Ha Hargs.
  assert (Hans : answering (game_state w) (effective_chat_id u) = true).
  { apply answering_true. exists a, d. done. }
  unfold trivia. unfold mbind at 1, Py_bind at 1, read_game_state. cbn beta iota.
  rewrite Hans. destruct (args c) as [|arg0 rest] eqn:Hc; [done|].
  unfold game_state_getitem, game_state_setitem, dict_getitem, dict_delitem,
    read_game_state, write_game_state, mbind, Py_bind, mret, Py_ret, verdict_message.
  cbn beta iota. rewrite Hd. cbn beta iota. rewrite Ha. cbn beta iota.
  destruct (decide _); cbn; rewrite Hd; cbn; rewrite Ha; cbn;
    unfold sent, stored, reply_text, emit; cbn; by rewrite <- app_assoc.
Qed.

End Trivia.

(** ** Generation *)

Lemma generate_and_relay (apology prompt : string) (w : world) :
  try_except
    (response ← generate_content prompt; reply_text response)
    (λ e, logger_error ("Gemini API error: " +:+ str_exn e);;
          reply_text (apology +:+ str_exn e)) w
  = (Ret tt, sent w (relay apology prompt (model w prompt))).
Proof.
  unfold try_except, mbind, Py_bind, generate_content, reply_text, logger_error,
    emit, sent, relay.
  destruct (model w prompt) as [response | description]; cbn;
    by rewrite <- !app_assoc.
Qed.

Lemma relay_generator_calls apology prompt outcome :
  generator_calls (relay apology prompt outcome) = [prompt].
Proof. by destruct outcome. Qed.

(** C6.  [ask_gemini] without arguments sends the usage hint and nothing else,
    so the model is not called.  With arguments it sends the placeholder,
    calls the model once with the arguments joined by spaces, and then sends
    one more reply: the response, or, when the call fails, a message that
    contains the description of the error.  In both cases the handler returns
    normally and the model is not called again. *)
Theorem ask_gemini_contract (u : update) (c : context) (w : world) :
  (args c = [] →
     ask_gemini u c w
     = (Ret tt, sent w [Reply "Please provide a question! Example: /ask What is Python?"]))
  ∧ (args c ≠ [] →
     ∃ es, ask_gemini u c w
           = (Ret tt, sent w (Reply "🤔 Thinking..." :: Generate (join " " (args c)) :: es))
       ∧ generator_calls es = []
       ∧ match model w (join " " (args c)) with
         | inl response => es = [Reply response]
         | inr description =>
             ∃ log, es = [LogError log; Reply ("❌ Error: " +:+ description)]
                    ∧ contains description ("❌ Error: " +:+ description) = true
         end).
Proof.
  split; intros Hargs; unfold ask_gemini.
  - by rewrite Hargs.
  - destruct (args c) as [|arg0 rest] eqn:Hc; [done|].
    unfold mbind at 1, Py_bind at 1, reply_text at 1, emit. cbn beta iota.
    rewrite generate_and_relay. unfold relay. cbn [model].
    fold (sent w [Reply "🤔 Thinking..."]). rewrite sent_sent. cbn [app].
    destruct (model w (join " " (arg0 :: rest))) as [response | description].
    + eexists. split; [reflexivity|]. done.
    + eexists. split; [reflexivity|]. split; [done|].
      eexists. split; [reflexivity|]. apply contains_app_r.
Qed.

Section Group.
Context {ops : StrOps}.

(** C4.  A group message whose text does not hold the handle of the bot and
    that does not reply to a message of the bot leaves the world as it is: no
    reply is sent and the model is not called.  Unless the replied-to message
    has no sender, the handler returns normally. *)
Theorem group_message_dropped (u : update) (c : context) (w : world) :
  (∀ t, text (update_message u) = Some t → contains ("@" +:+ bot_username c) t = false) →
  reply_to_message (update_message u) ≠ Some (Some (bot_id c)) →
  (handle_group_message u c w).2 = w
  ∧ replies (trace (handle_group_message u c w).2) = replies (trace w)
  ∧ generator_calls (trace (handle_group_message u c w).2) = generator_calls (trace w)
  ∧ (reply_to_message (update_message u) ≠ Some None →
     handle_group_message u c w = (Ret tt, w)).
Proof.
  intros Htext Hreply.
  assert (Hm : match text (update_message u) with
               | Some t => if decide (t = "") then false
                           else contains ("@" +:+ bot_username c) t
               | None => false
               end = false).
  { destruct (text (update_message u)) as [t|]; [|done].
    destruct (decide _); [done | by apply Htext]. }
  assert (Hw : (handle_group_message u c w).2 = w
               ∧ (reply_to_message (update_message u) ≠ Some None →
                  handle_group_message u c w = (Ret tt, w))).
  { unfold handle_group_message. rewrite Hm.
    destruct (reply_to_message (update_message u)) as [[sender|]|]; cbn.
    - rewrite bool_decide_eq_false_2 by congruence. done.
    - done.
    - done. }
  destruct Hw as [Hw Hret]. rewrite Hw. done.
Qed.

(** C5.  For a group message that passes the routing test, the prompt is the
    text with every occurrence of the handle removed and the result stripped.
    An empty prompt is answered by the canned question without a call of the
    model; any other prompt is sent to the model once, and the response is
    relayed as it is, or the error is reported in a reply. *)
Theorem group_message_generation (u : update) (c : context) (w : world) (t : string) :
  routed_to_generation u c t →
  let prompt := strip (replace t ("@" +:+ bot_username c) "") in
  (prompt = "" →
     handle_group_message u c w = (Ret tt, sent w [Reply "Yes? How can I help you?"]))
  ∧ (prompt ≠ "" →
     handle_group_message u c w
     = (Ret tt,
        sent w (Generate prompt ::
                match model w prompt with
                | inl response => [Reply response]
                | inr description =>
                    [LogError ("Gemini API error: " +:+ description);
                     Reply ("❌ Sorry, I encountered an error: " +:+ description)]
                end))).
Proof.
  intros (Ht & Hfrom & Hrouted) prompt.
  assert (Hgo : handle_group_message u c w
    = (if decide (prompt = "") then reply_text "Yes? How can I help you?"
       else try_except
              (response ← generate_content prompt; reply_text response)
              (λ e, logger_error ("Gemini API error: " +:+ str_exn e);;
                    reply_text ("❌ Sorry, I encountered an error: " +:+ str_exn e))) w).
  { unfold handle_group_message. rewrite Ht.
    destruct Hrouted as [Hm | Hr].
    - destruct (decide (t = "")) as [-> | _]; [done|]. rewrite Hm.
      destruct (reply_to_message (update_message u)) as [[sender|]|]; done.
    - rewrite Hr. unfold mbind at 1, Py_bind at 1, mret at 1, Py_ret at 1.
      rewrite bool_decide_eq_true_2 by done.
      rewrite orb_true_r. done. }
  rewrite Hgo. split; intros Hp; destruct (decide _); try done.
  apply generate_and_relay.
Qed.

End Group.

(** ** The store across handlers *)

Lemma keeps_store_ret {A} (a : A) : keeps_store (mret a : Py A).
Proof. by intros w. Qed.

Lemma keeps_store_raise {A} e : keeps_store (raise e : Py A).
Proof. by intros w. Qed.

Lemma keeps_store_bind {A B} (m : Py A) (k : A → Py B) :
  keeps_store m → (∀ a, keeps_store (k a)) → keeps_store (m ≫= k).
Proof.
  intros Hm Hk w. unfold mbind, Py_bind.
  specialize (Hm w). destruct (m w) as [[a | e] w']; simpl in *; [|done].
  by rewrite Hk.
Qed.

Lemma keeps_store_try {A} (m : Py A) (h : exn → Py A) :
  keeps_store m → (∀ e, keeps_store (h e)) → keeps_store (try_except m h).
Proof.
  intros Hm Hh w. unfold try_except.
  specialize (Hm w). destruct (m w) as [[a | e] w']; simpl in *; [done|].
  by rewrite Hh.
Qed.

Lemma keeps_store_emit e : keeps_store (emit e).
Proof. by intros w. Qed.

Lemma keeps_store_generate prompt : keeps_store (generate_content prompt).
Proof. intros w. unfold generate_content. by destruct (model w prompt). Qed.

Lemma keeps_store_randbelow n : keeps_store (randbelow n).
Proof. by intros w. Qed.

Lemma keeps_store_choice {A} (seq : list A) : keeps_store (random_choice seq).
Proof.
  destruct seq as [|x seq]; [apply keeps_store_raise|].
  apply keeps_store_bind; [apply keeps_store_randbelow|].
  intros i. destruct (_ !! i); [apply keeps_store_ret | apply keeps_store_raise].
Qed.

Lemma keeps_store_getitem {A} (seq : list A) i : keeps_store (getitem seq i).
Proof.
  unfold getitem. destruct (_ && _); [|apply keeps_store_raise].
  destruct (_ !! _); [apply keeps_store_ret | apply keeps_store_raise].
Qed.

Lemma keeps_store_dict_getitem d k : keeps_store (dict_getitem d k).
Proof.
  unfold dict_getitem.
  destruct (_ !! _); [apply keeps_store_ret | apply keeps_store_raise].
Qed.

Create HintDb keeps_store.
#[local] Hint Resolve keeps_store_ret keeps_store_raise keeps_store_emit
  keeps_store_generate keeps_store_randbelow keeps_store_choice
  keeps_store_getitem keeps_store_dict_getitem : keeps_store.

Ltac solve_keeps_store :=
  repeat first
    [ apply keeps_store_bind; [|intros ?]
    | apply keeps_store_try; [|intros ?]
    | progress unfold reply_text, logger_error, random_randint
    | solve [auto with keeps_store]
    | match goal with
      | |- keeps_store (match ?x with _ => _ end) => destruct x
      | |- keeps_store (if ?b then _ else _) => destruct b
      end ].

Section Store.
Context {ops : StrOps}.

Lemma keeps_store_ask_gemini u c : keeps_store (ask_gemini u c).
Proof. unfold ask_gemini. solve_keeps_store. Qed.

Lemma keeps_store_group u c : keeps_store (handle_group_message u c).
Proof. unfold handle_group_message. solve_keeps_store. Qed.

Lemma keeps_store_roll_dice u c : keeps_store (roll_dice u c).
Proof. unfold roll_dice. solve_keeps_store. Qed.

Lemma keeps_store_flip_coin u c : keeps_store (flip_coin u c).
Proof. unfold flip_coin. solve_keeps_store. Qed.

Lemma keeps_store_8ball u c : keeps_store (magic_8ball u c).
Proof. unfold magic_8ball. solve_keeps_store. Qed.

Lemma keeps_store_rps u c : keeps_store (rock_paper_scissors u c).
Proof. unfold rock_paper_scissors. solve_keeps_store. Qed.

Lemma keeps_store_start u c : keeps_store (start u c).
Proof. unfold start. solve_keeps_store. Qed.

Lemma keeps_store_help u c : keeps_store (help_command u c).
Proof. unfold help_command. solve_keeps_store. Qed.

(** What [trivia] does, by the state of the conversation and the presence of
    arguments. *)
Lemma trivia_cases (u : update) (c : context) (w : world) :
  let chat_id := effective_chat_id u in
  (∃ q a, questions !! next_draw w 8 = Some (q, a)
     ∧ (idle (game_state w) chat_id ∨ args c = [])
     ∧ trivia u c w
       = (Ret tt,
          sent (stored (<[chat_id := {["trivia_answer" := a]}]> (game_state w)) (drawn w))
               [Reply (question_message q)]))
  ∨ (∃ d a, game_state w !! chat_id = Some d ∧ d !! "trivia_answer" = Some a
       ∧ args c ≠ []
       ∧ trivia u c w
         = (Ret tt,
            sent (stored (<[chat_id := delete "trivia_answer" d]> (game_state w)) w)
                 [Reply (verdict_message (strip (join " " (args c))) a);
                  Reply "Type /trivia for another question!"])).
Proof.
  intros chat_id.
  destruct (answering (game_state w) chat_id) eqn:Hans.
  - destruct (args c) as [|arg0 rest] eqn:Hargs.
    + left. destruct (new_question_run chat_id w) as (q & a & Hq & Hrun).
      exists q, a. split; [done|]. split; [by right|].
      by rewrite trivia_no_args.
    + right. apply answering_true in Hans as (a & d & Hd & Ha).
      exists d, a. split; [done|]. split; [done|]. split; [done|].
      rewrite <- Hargs. apply trivia_submit; [done | done | by rewrite Hargs].
  - left. apply answering_false in Hans.
    destruct (new_question_run chat_id w) as (q & a & Hq & Hrun).
    exists q, a. split; [done|]. split; [by left|].
    by rewrite trivia_idle.
Qed.

(** No handler removes a conversation from the store. *)
Lemma trivia_keeps_keys (u : update) (c : context) (w : world) k :
  is_Some (game_state w !! k) → is_Some (game_state (trivia u c w).2 !! k).
Proof.
  intros Hk.
  destruct (trivia_cases u c w) as [(q & a & _ & _ & ->) | (d & a & _ & _ & _ & ->)];
    cbn; (destruct (decide (effective_chat_id u = k)) as [-> | Hne];
          [rewrite lookup_insert_eq; eauto | by rewrite lookup_insert_ne]).
Qed.

Lemma trivia_session_shaped (u : update) (c : context) (w : world) :
  session_shaped (game_state w) → session_shaped (game_state (trivia u c w).2).
Proof.
  intros Hs k d'.
  destruct (trivia_cases u c w) as [(q & a & _ & _ & ->) | (d & a & Hd & Ha & _ & ->)];
    cbn; (destruct (decide (effective_chat_id u = k)) as [-> | Hne];
          [rewrite lookup_insert_eq | rewrite lookup_insert_ne by done; apply Hs]).
  - intros [= <-]. right. eauto.
  - intros [= <-]. left.
    destruct (Hs _ _ Hd) as [-> | (a' & ->)]; [done|].
    apply delete_singleton_eq.
Qed.

Lemma command_keeps_or_trivia name h :
  (name, h) ∈ command_handlers → h = trivia ∨ ∀ u c, keeps_store (h u c).
Proof.
  unfold command_handlers. rewrite !elem_of_cons, elem_of_nil.
  intros [H|[H|[H|[H|[H|[H|[H|[H|[]]]]]]]]]; injection H as _ ->; auto;
    right; intros u c;
    auto using keeps_store_ask_gemini, keeps_store_roll_dice, keeps_store_flip_coin,
      keeps_store_8ball, keeps_store_rps, keeps_store_start, keeps_store_help.
Qed.

(** No registered handler removes a conversation from the store. *)
Lemma handler_keeps_keys (h : update → context → Py unit) u c w k :
  (h = handle_group_message ∨ ∃ name, (name, h) ∈ command_handlers) →
  is_Some (game_state w !! k) → is_Some (game_state (h u c w).2 !! k).
Proof.
  intros [-> | (name & Hh)] Hk.
  - by rewrite keeps_store_group.
  - destruct (command_keeps_or_trivia _ _ Hh) as [-> | Hkeep].
    + by apply trivia_keeps_keys.
    + by rewrite Hkeep.
Qed.

Lemma reachable_session_shaped (w : world) :
  reachable w → session_shaped (game_state w).
Proof.
  induction 1 as [m e n | w name h u c Hw IH Hh | w u c Hw IH | w m e Hw IH].
  - intros k d. cbn. by rewrite lookup_empty.
  - destruct (command_keeps_or_trivia _ _ Hh) as [-> | Hkeep].
    + by apply trivia_session_shaped.
    + by rewrite Hkeep.
  - by rewrite keeps_store_group.
  - done.
Qed.

End Store.

(** ** The trivia session of a conversation *)

Lemma filter_key_absent {V} (l : list (Z * V)) k :
  k ∉ l.*1 → filter (λ kv, kv.1 = k) l = [].
Proof.
  induction l as [|[k' v'] l IH]; [done|].
  rewrite fmap_cons, not_elem_of_cons. cbn [fst]. intros [Hne Hnotin].
  rewrite filter_cons. cbn [fst]. rewrite decide_False by done. by apply IH.
Qed.

(** A store has one entry for a conversation that has any. *)
Lemma one_entry_per_key {V} (l : list (Z * V)) k :
  NoDup l.*1 → k ∈ l.*1 → length (filter (λ kv, kv.1 = k) l) = 1.
Proof.
  induction l as [|[k' v'] l IH]; [by intros _ ?%elem_of_nil|].
  rewrite fmap_cons. intros [Hnotin Hnd]%NoDup_cons Hin.
  rewrite filter_cons. cbn [fst] in *.
  destruct (decide (k' = k)) as [-> | Hne]; cbn [length].
  - by rewrite filter_key_absent.
  - apply IH; [done|]. apply elem_of_cons in Hin as [->|]; done.
Qed.

Lemma one_session_per_chat (gs : gmap Z (gmap string string)) chat_id :
  is_Some (gs !! chat_id) →
  length (filter (λ kv, kv.1 = chat_id) (map_to_list gs)) = 1.
Proof.
  intros [d Hd]. apply one_entry_per_key.
  - apply NoDup_fst_map_to_list.
  - apply list_elem_of_fmap. exists (chat_id, d). split; [done|].
    by apply elem_of_map_to_list.
Qed.

Lemma awaiting_answer_unique gs chat_id a a' :
  awaiting_answer gs chat_id a → awaiting_answer gs chat_id a' → a = a'.
Proof. intros (d & Hd & Ha) (d' & Hd' & Ha'). congruence. Qed.

Section Session.
Context {ops : StrOps}.

(** C1, as the code has it.  In an idle conversation [trivia] does not look at
    its arguments: with or without them it draws a question, stores its answer
    as the pending session of the conversation and replies with the
    question. *)
Theorem trivia_idle_starts_question (u : update) (c : context) (w : world) :
  idle (game_state w) (effective_chat_id u) →
  ∃ q a, questions !! next_draw w 8 = Some (q, a)
    ∧ trivia u c w
      = (Ret tt,
         sent (stored (<[effective_chat_id u := {["trivia_answer" := a]}]> (game_state w))
                      (drawn w))
              [Reply (question_message q)])
    ∧ awaiting_answer (game_state (trivia u c w).2) (effective_chat_id u) a.
Proof.
  intros Hidle. rewrite trivia_idle by done.
  destruct (new_question_run (effective_chat_id u) w) as (q & a & Hq & ->).
  exists q, a. split; [done|]. split; [done|].
  cbn. exists {["trivia_answer" := a]}.
  by rewrite lookup_insert_eq, lookup_singleton_eq.
Qed.

(** C2.  When a conversation awaits an answer and [trivia] is given arguments,
    the stripped, space-joined arguments and the stored answer are compared
    after lowercasing both; the first reply says "Correct" when they agree and
    otherwise shows the stored answer; afterwards the conversation is idle in
    either case.  On ASCII text, PARIS is accepted for a stored Paris. *)
Theorem trivia_answer_checked_then_idle (u : update) (c : context) (w : world) (a : string) :
  awaiting_answer (game_state w) (effective_chat_id u) a →
  args c ≠ [] →
  let user_answer := strip (join " " (args c)) in
  ∃ verdict,
    trace (trivia u c w).2
    = (trace w ++ [Reply verdict; Reply "Type /trivia for another question!"])%list
    ∧ (trivia u c w).1 = Ret tt
    ∧ (lower user_answer = lower a → verdict = "✅ Correct! Well done! 🎉")
    ∧ (lower user_answer ≠ lower a →
       verdict = "❌ Wrong! The correct answer was: " +:+ a
       ∧ contains a verdict = true)
    ∧ idle (game_state (trivia u c w).2) (effective_chat_id u)
    ∧ @verdict_message ascii_ops (ascii_strip (join " " ["PARIS"])) "Paris"
      = "✅ Correct! Well done! 🎉".
Proof.
  intros (d & Hd & Ha) Hargs user_answer.
  rewrite (trivia_submit u c w d a) by done. cbn.
  exists (verdict_message user_answer a).
  split; [done|]. split; [done|].
  unfold verdict_message.
  split; [intros; by rewrite decide_True|].
  split; [intros; rewrite decide_False by done; split; [done | apply contains_app_r]|].
  split; [|done].
  right. exists (delete "trivia_answer" d).
  by rewrite lookup_insert_eq, lookup_delete_eq.
Qed.

(** C3.  Two requests for a question in a row, from any state of the store,
    leave one entry for the conversation, and it holds the answer of the
    second question only; the rest of the store is as before. *)
Theorem trivia_twice_overwrites (u : update) (c1 c2 : context) (w : world) :
  args c1 = [] → args c2 = [] →
  let chat_id := effective_chat_id u in
  let w2 := (trivia u c2 (trivia u c1 w).2).2 in
  ∃ q1 a1 q2 a2,
    questions !! next_draw w 8 = Some (q1, a1)
    ∧ questions !! next_draw (drawn w) 8 = Some (q2, a2)
    ∧ game_state w2 = <[chat_id := {["trivia_answer" := a2]}]> (game_state w)
    ∧ game_state w2 !! chat_id = Some {["trivia_answer" := a2]}
    ∧ (∀ a, awaiting_answer (game_state w2) chat_id a ↔ a = a2)
    ∧ length (filter (λ kv, kv.1 = chat_id) (map_to_list (game_state w2))) = 1
    ∧ trace w2
      = (trace w ++ [Reply (question_message q1); Reply (question_message q2)])%list.
Proof.
  intros H1 H2. cbv zeta.
  rewrite (trivia_no_args u c1 w) by done.
  destruct (new_question_run (effective_chat_id u) w) as (q1 & a1 & Hq1 & ->).
  cbn [snd]. rewrite trivia_no_args by done.
  match goal with |- context [new_question _ ?w1] =>
    destruct (new_question_run (effective_chat_id u) w1) as (q2 & a2 & Hq2 & ->) end.
  exists q1, a1, q2, a2. cbn in *.
  set (chat_id := effective_chat_id u).
  assert (Hlook : (<[chat_id:={["trivia_answer" := a2]}]>
                     (<[chat_id:={["trivia_answer" := a1]}]> (game_state w)) : gmap Z _)
                  !! chat_id = Some {["trivia_answer" := a2]})
    by apply lookup_insert_eq.
  split; [done|]. split; [done|].
  split; [apply insert_insert_eq|].
  split; [done|].
  split.
  { intros a. split.
    - intros (d & Hd & Ha). rewrite Hlook in Hd. injection Hd as <-.
      rewrite lookup_singleton_eq in Ha. congruence.
    - intros ->. eexists. split; [exact Hlook | apply lookup_singleton_eq]. }
  split; [apply one_session_per_chat; by rewrite Hlook|].
  by rewrite <- app_assoc.
Qed.

(** C9.  After an answer has consumed the pending session of a conversation,
    the store still has an entry for it, now the empty dictionary; no handler
    ever removes a key of the store; a conversation is idle exactly when no
    answer is stored for it; and [trivia] behaves in the same way on any two
    idle representations of the conversation: same result, same replies, same
    draws, same entry afterwards. *)
Theorem trivia_consumed_session_leaves_entry (u : update) (c : context) (w : world) (a : string) :
  reachable w →
  awaiting_answer (game_state w) (effective_chat_id u) a →
  args c ≠ [] →
  let chat_id := effective_chat_id u in
  let w' := (trivia u c w).2 in
  game_state w' !! chat_id = Some ∅
  ∧ game_state w' = <[chat_id := ∅]> (game_state w)
  ∧ idle (game_state w') chat_id
  ∧ (∀ h u0 c0 w0 k,
       (h = handle_group_message ∨ ∃ name, (name, h) ∈ command_handlers) →
       is_Some (game_state w0 !! k) → is_Some (game_state (h u0 c0 w0).2 !! k))
  ∧ (∀ gs, idle gs chat_id ↔ ∀ a0, ¬ awaiting_answer gs chat_id a0)
  ∧ (∀ c' gs1 gs2,
       idle gs1 chat_id → idle gs2 chat_id →
       let r1 := trivia u c' (stored gs1 w') in
       let r2 := trivia u c' (stored gs2 w') in
       r1.1 = r2.1 ∧ trace r1.2 = trace r2.2 ∧ draws r1.2 = draws r2.2
       ∧ game_state r1.2 !! chat_id = game_state r2.2 !! chat_id).
Proof.
  intros Hreach (d & Hd & Ha) Hargs. cbv zeta.
  set (chat_id := effective_chat_id u) in *.
  set (w' := (trivia u c w).2).
  assert (Hdel : delete "trivia_answer" d = ∅).
  { destruct (reachable_session_shaped w Hreach _ _ Hd) as [-> | (a' & ->)]; [done|].
    apply delete_singleton_eq. }
  assert (Hw' : game_state w' = <[chat_id := ∅]> (game_state w)).
  { subst w'. rewrite (trivia_submit u c w d a) by done. cbn. by rewrite Hdel. }
  split; [rewrite Hw'; apply lookup_insert_eq|].
  split; [done|].
  split; [right; exists ∅; rewrite Hw', lookup_insert_eq; done|].
  split; [intros; by apply handler_keeps_keys|].
  split.
  { intros gs. split.
    - intros Hi a0. by apply idle_not_awaiting.
    - intros Hno. apply answering_false.
      destruct (answering gs chat_id) eqn:Hans; [|done].
      apply answering_true in Hans as [a0 Ha0]. by destruct (Hno a0). }
  intros c' gs1 gs2 Hi1 Hi2.
  rewrite !trivia_idle by done. fold chat_id.
  destruct (new_question_run chat_id (stored gs1 w')) as (q1 & a1 & Hq1 & ->).
  destruct (new_question_run chat_id (stored gs2 w')) as (q2 & a2 & Hq2 & ->).
  change (next_draw (stored gs2 w') 8) with (next_draw (stored gs1 w') 8) in Hq2.
  rewrite Hq1 in Hq2. injection Hq2 as <- <-. cbn.
  by rewrite !lookup_insert_eq.
Qed.

End Session.


(** C1 as stated fails: in an idle conversation, [trivia] with an answer as
    argument opens a session and replies with a question. *)
Lemma trivia_idle_answer_creates_session :
  let w := fresh echo 2 in
  let w' := (@trivia ascii_ops chat (with_args ["Jupiter"]) w).2 in
  idle (game_state w) 7
  ∧ ¬ idle (game_state w') 7
  ∧ awaiting_answer (game_state w') 7 "Jupiter"
  ∧ trace w' = [Reply (question_message "What is the largest planet in our solar system?")].
Proof.
  cbv zeta.
  assert (Ha : awaiting_answer
                 (game_state (@trivia ascii_ops chat (with_args ["Jupiter"]) (fresh echo 2)).2)
                 7 "Jupiter").
  { exists {["trivia_answer" := "Jupiter"]}. split; reflexivity. }
  split; [by left|]. split; [|split; [exact Ha | reflexivity]].
  intros Hi. exact (idle_not_awaiting _ _ _ Hi Ha).
Qed.

Lemma trivia_idle_starts_question_witness :
  idle (game_state (fresh echo 2)) (effective_chat_id chat)
  ∧ ∃ q a, questions !! next_draw (fresh echo 2) 8 = Some (q, a)
      ∧ @trivia ascii_ops chat (with_args ["Jupiter"]) (fresh echo 2)
        = (Ret tt,
           sent (stored (<[effective_chat_id chat := {["trivia_answer" := a]}]>
                           (game_state (fresh echo 2)))
                        (drawn (fresh echo 2)))
                [Reply (question_message q)])
      ∧ awaiting_answer
          (game_state (@trivia ascii_ops chat (with_args ["Jupiter"]) (fresh echo 2)).2)
          (effective_chat_id chat) a.
Proof.
  assert (H : idle (game_state (fresh echo 2)) (effective_chat_id chat)) by (left; reflexivity).
  split; [exact H|].
  exact (@trivia_idle_starts_question ascii_ops chat (with_args ["Jupiter"]) (fresh echo 2) H).
Defined.

Lemma trivia_answer_checked_then_idle_witness :
  let w := stored {[7%Z := {["trivia_answer" := "Paris"]}]} (fresh echo 0) in
  trace (@trivia ascii_ops chat (with_args ["PARIS"]) w).2
  = [Reply "✅ Correct! Well done! 🎉"; Reply "Type /trivia for another question!"]
  ∧ idle (game_state (@trivia ascii_ops chat (with_args ["PARIS"]) w).2) 7.
Proof.
  cbv zeta.
  set (w := stored {[7%Z := {["trivia_answer" := "Paris"]}]} (fresh echo 0)).
  assert (Ha : awaiting_answer (game_state w) (effective_chat_id chat) "Paris").
  { exists {["trivia_answer" := "Paris"]}. split; reflexivity. }
  assert (Hargs : args (with_args ["PARIS"]) ≠ []) by discriminate.
  destruct (@trivia_answer_checked_then_idle ascii_ops chat (with_args ["PARIS"]) w
              "Paris" Ha Hargs)
    as (verdict & Htrace & _ & Hok & _ & Hidle & _).
  split; [|exact Hidle].
  rewrite Htrace, (Hok eq_refl). reflexivity.
Defined.

Lemma trivia_twice_overwrites_witness :
  let w2 := (@trivia ascii_ops chat (with_args [])
               (@trivia ascii_ops chat (with_args []) (World ∅ echo (λ n, n) 0 [])).2).2 in
  game_state w2 !! 7%Z = Some {["trivia_answer" := "4"]}
  ∧ length (filter (λ kv, kv.1 = 7%Z) (map_to_list (game_state w2))) = 1.
Proof.
  cbv zeta.
  destruct (@trivia_twice_overwrites ascii_ops chat (with_args []) (with_args [])
              (World ∅ echo (λ n, n) 0 []) eq_refl eq_refl)
    as (q1 & a1 & q2 & a2 & _ & Hq2 & _ & Hlook & _ & Hone & _).
  injection Hq2 as <- <-. split; [exact Hlook | exact Hone].
Defined.

Lemma group_message_dropped_witness :
  (@handle_group_message ascii_ops (group_text "hello" None) (with_args []) (fresh echo 0)).2
  = fresh echo 0
  ∧ replies (trace (@handle_group_message ascii_ops (group_text "hello" None)
                      (with_args []) (fresh echo 0)).2) = [].
Proof.
  assert (Htext : ∀ t, text (update_message (group_text "hello" None)) = Some t →
                       contains ("@" +:+ bot_username (with_args [])) t = false).
  { intros t [= <-]. reflexivity. }
  assert (Hreply : reply_to_message (update_message (group_text "hello" None))
                   ≠ Some (Some (bot_id (with_args [])))) by discriminate.
  destruct (@group_message_dropped ascii_ops (group_text "hello" None) (with_args [])
              (fresh echo 0) Htext Hreply) as (Hw & Hr & _).
  split; [exact Hw | exact Hr].
Defined.

Lemma group_message_generation_witness :
  routed_to_generation (group_text "@bot hello" None) (with_args []) "@bot hello"
  ∧ @handle_group_message ascii_ops (group_text "@bot hello" None) (with_args [])
      (fresh echo 0)
    = (Ret tt, sent (fresh echo 0) [Generate "hello"; Reply "echo: hello"]).
Proof.
  assert (H : routed_to_generation (group_text "@bot hello" None) (with_args []) "@bot hello").
  { split; [reflexivity|]. split; [discriminate | left; reflexivity]. }
  split; [exact H|].
  apply (@group_message_generation ascii_ops (group_text "@bot hello" None) (with_args [])
           (fresh echo 0) "@bot hello" H).
  discriminate.
Defined.

Lemma ask_gemini_contract_witness :
  args (with_args ["What"; "is"; "Python?"]) ≠ []
  ∧ ∃ es, ask_gemini chat (with_args ["What"; "is"; "Python?"]) (fresh failing 0)
          = (Ret tt, sent (fresh failing 0)
                       (Reply "🤔 Thinking..." :: Generate "What is Python?" :: es))
      ∧ replies es = ["❌ Error: 429 quota exceeded"].
Proof.
  assert (H : args (with_args ["What"; "is"; "Python?"]) ≠ []) by discriminate.
  split; [exact H|].
  destruct (proj2 (ask_gemini_contract chat (with_args ["What"; "is"; "Python?"])
                     (fresh failing 0)) H) as (es & Hrun & _ & log & Hes & _).
  exists es. split; [exact Hrun|]. rewrite Hes. reflexivity.
Defined.


Lemma rock_paper_scissors_rules_witness :
  @lower ascii_ops "Rock" ∈ choices
  ∧ ∃ user_emoji bot_emoji,
      @rock_paper_scissors ascii_ops chat (with_args ["Rock"]) (fresh echo 2)
      = (Ret tt, sent (drawn (fresh echo 2))
                   [Reply (rps_message user_emoji "rock" bot_emoji "scissors" "You win! 🎉")]).
Proof.
  assert (Hvalid : @lower ascii_ops "Rock" ∈ choices).
  { unfold choices. rewrite !elem_of_cons. left. reflexivity. }
  split; [exact Hvalid|].
  destruct (proj1 (proj2 (@rock_paper_scissors_rules ascii_ops chat (with_args ["Rock"])
                            (fresh echo 2)))
              "Rock" [] "scissors" eq_refl Hvalid eq_refl)
    as (ue & be & verdict & Hrun & _ & Hwin & _).
  exists ue, be. rewrite Hrun, (Hwin rock_beats_scissors). reflexivity.
Defined.

Example rock_against_rock :
  replies (trace (@rock_paper_scissors ascii_ops chat (with_args ["rock"]) (fresh echo 0)).2)
  = [rps_message "✊" "rock" "✊" "rock" "It's a tie! 🤝"].
Proof. reflexivity. Qed.

Example rock_against_paper :
  replies (trace (@rock_paper_scissors ascii_ops chat (with_args ["rock"]) (fresh echo 1)).2)
  = [rps_message "✊" "rock" "✋" "paper" "I win! 🤖"].
Proof. reflexivity. Qed.

Example rock_against_scissors :
  replies (trace (@rock_paper_scissors ascii_ops chat (with_args ["rock"]) (fresh echo 2)).2)
  = [rps_message "✊" "rock" "✌️" "scissors" "You win! 🎉"].
Proof. reflexivity. Qed.

Lemma trivia_consumed_session_leaves_entry_witness :
  let w := (@trivia ascii_ops chat (with_args []) (fresh echo 0)).2 in
  let w' := (@trivia ascii_ops chat (with_args ["London"]) w).2 in
  awaiting_answer (game_state w) 7 "Paris"
  ∧ game_state w' !! 7%Z = Some ∅
  ∧ idle (game_state w') 7.
Proof.
  cbv zeta.
  set (w := (@trivia ascii_ops chat (with_args []) (fresh echo 0)).2).
  assert (Hreach : @reachable ascii_ops w).
  { apply (@reachable_command ascii_ops _ "trivia" trivia); [apply reachable_start|].
    unfold command_handlers. rewrite !elem_of_cons. do 7 right. left. reflexivity. }
  assert (Ha : awaiting_answer (game_state w) (effective_chat_id chat) "Paris").
  { exists {["trivia_answer" := "Paris"]}. split; reflexivity. }
  assert (Hargs : args (with_args ["London"]) ≠ []) by discriminate.
  destruct (@trivia_consumed_session_leaves_entry ascii_ops chat (with_args ["London"]) w
              "Paris" Hreach Ha Hargs) as (Hentry & _ & Hidle & _).
  split; [exact Ha|]. split; [exact Hentry | exact Hidle].
Defined.

Lemma magic_8ball_ignores_question_witness :
  args (with_args ["Will"; "I"; "win?"]) ≠ []
  ∧ args (with_args ["Is"; "it"; "late?"]) ≠ []
  ∧ magic_8ball chat (with_args ["Will"; "I"; "win?"]) (fresh failing 35)
    = magic_8ball chat (with_args ["Is"; "it"; "late?"]) (fresh failing 35).
Proof.
  assert (H1 : args (with_args ["Will"; "I"; "win?"]) ≠ []) by discriminate.
  assert (H2 : args (with_args ["Is"; "it"; "late?"]) ≠ []) by discriminate.
  split; [exact H1|]. split; [exact H2|].
  exact (proj1 (magic_8ball_ignores_question chat chat _ _ (fresh failing 35) H1 H2)).
Defined.

(** * Beyond single handlers *)

(** ** What a run amounts to *)

Lemma runs_to_sent m w es :
  m w = (Ret tt, sent w es) → runs_to m w (game_state w) 0 es.
Proof. intros H. unfold runs_to. by rewrite H. Qed.

Lemma runs_to_sent_drawn m w es :
  m w = (Ret tt, sent (drawn w) es) → runs_to m w (game_state w) 1 es.
Proof. intros H. unfold runs_to. by rewrite H. Qed.

Lemma roll_dice_run (u : update) (c : context) (w : world) :
  ∃ text, roll_dice u c w = (Ret tt, sent (drawn w) [Reply text]).
Proof.
  pose proof (next_draw_lt w 6 ltac:(done)) as Hk.
  unfold roll_dice, random_randint.
  unfold mbind, Py_bind, randbelow, mret, Py_ret. cbn beta iota.
  change (Z.to_nat (6 - 1 + 1)) with 6. fold (next_draw w 6).
  destruct (next_draw w 6) as [|[|[|[|[|[|k]]]]]]; [by eexists ..|lia].
Qed.

Lemma flip_coin_run (u : update) (c : context) (w : world) :
  ∃ text, flip_coin u c w = (Ret tt, sent (drawn w) [Reply text]).
Proof.
  destruct (random_choice_run ["Heads"; "Tails"] w ltac:(done)) as (x & Hx & Hrun).
  unfold flip_coin. rewrite (bind_ret _ _ _ _ _ Hrun). by eexists.
Qed.

Lemma magic_8ball_run (u : update) (c : context) (w : world) :
  ∃ text, magic_8ball u c w
          = (Ret tt, sent (if args c is [] then w else drawn w) [Reply text]).
Proof.
  unfold magic_8ball. destruct (args c); [by eexists|].
  destruct (random_choice_run responses w ltac:(done)) as (x & Hx & Hrun).
  rewrite (bind_ret _ _ _ _ _ Hrun). by eexists.
Qed.

Lemma ask_gemini_run (u : update) (c : context) (w : world) :
  ask_gemini u c w
  = (Ret tt,
     sent w (match args c with
             | [] => [Reply "Please provide a question! Example: /ask What is Python?"]
             | _ => Reply "🤔 Thinking..."
                    :: relay "❌ Error: " (join " " (args c)) (model w (join " " (args c)))
             end)).
Proof.
  unfold ask_gemini. destruct (args c) as [|arg0 rest]; [done|].
  unfold mbind at 1, Py_bind at 1, reply_text at 1, emit. cbn beta iota.
  rewrite generate_and_relay. cbn [model].
  fold (sent w [Reply "🤔 Thinking..."]). by rewrite sent_sent.
Qed.

Ltac footprint_facts :=
  cbn; repeat split; auto; try lia; try done;
  intros Hin;
  repeat (apply elem_of_cons in Hin as [Hin | Hin]; [discriminate|]);
  by apply elem_of_nil in Hin.

Section Footprint.
Context {ops : StrOps}.

Lemma rps_run (u : update) (c : context) (w : world) :
  ∃ text, rock_paper_scissors u c w = (Ret tt, sent w [Reply text])
          ∨ rock_paper_scissors u c w = (Ret tt, sent (drawn w) [Reply text]).
Proof.
  destruct (args c) as [|arg0 rest] eqn:Hargs.
  { eexists. left. apply rps_invalid. by left. }
  destruct (decide (lower arg0 ∈ choices)) as [Hin | Hnotin].
  - destruct (lookup_lt_is_Some_2 choices (next_draw w 3)) as [bot_choice Hb];
      [by apply (next_draw_lt w 3)|].
    destruct (rps_valid u c w arg0 rest bot_choice Hargs Hin Hb)
      as (ue & be & verdict & _ & _ & Hrun & _).
    eexists. right. exact Hrun.
  - eexists. left. apply rps_invalid. right. eauto.
Qed.

(** The footprint of every command: it returns, it changes the store only
    if it is [trivia], it draws at most once and only if it is a game, it
    sends one or two replies, and it calls the model only if it is [ask],
    and then at most once. *)
Lemma command_footprint name h (u : update) (c : context) (w : world) :
  (name, h) ∈ command_handlers →
  ∃ gs' k es,
    runs_to (h u c) w gs' k es
    ∧ (name ≠ "trivia" → gs' = game_state w)
    ∧ (k ≤ 1)%nat
    ∧ (name ∈ ["start"; "help"; "ask"] → k = 0)
    ∧ (length (replies es) = 1 ∨ length (replies es) = 2)
    ∧ (length (generator_calls es) ≤ 1)%nat
    ∧ (name ≠ "ask" → generator_calls es = []).
Proof.
  unfold command_handlers. rewrite !elem_of_cons, elem_of_nil.
  intros [H|[H|[H|[H|[H|[H|[H|[H|[]]]]]]]]]; injection H as -> ->.
  - eexists _, 0, [Reply _]. split; [reflexivity|]. footprint_facts.
  - eexists _, 0, [Reply _]. split; [reflexivity|]. footprint_facts.
  - eexists _, 0, _. split; [apply runs_to_sent, ask_gemini_run|].
    destruct (args c); [footprint_facts|].
    destruct (model w _); footprint_facts.
  - destruct (roll_dice_run u c w) as [text Hrun].
    eexists _, 1, [Reply text]. split; [by apply runs_to_sent_drawn|].
    footprint_facts.
  - destruct (flip_coin_run u c w) as [text Hrun].
    eexists _, 1, [Reply text]. split; [by apply runs_to_sent_drawn|].
    footprint_facts.
  - destruct (magic_8ball_run u c w) as [text Hrun].
    destruct (args c).
    + eexists _, 0, [Reply text]. split; [by apply runs_to_sent|]. footprint_facts.
    + eexists _, 1, [Reply text]. split; [by apply runs_to_sent_drawn|].
      footprint_facts.
  - destruct (rps_run u c w) as [text [Hrun | Hrun]].
    + eexists _, 0, [Reply text]. split; [by apply runs_to_sent|]. footprint_facts.
    + eexists _, 1, [Reply text]. split; [by apply runs_to_sent_drawn|].
      footprint_facts.
  - destruct (trivia_cases u c w) as [(q & a & _ & _ & Hrun) | (d & a & _ & _ & _ & Hrun)].
    + eexists _, 1, [Reply _]. split; [unfold runs_to; by rewrite Hrun|].
      footprint_facts.
    + eexists _, 0, [Reply _; Reply _]. split; [unfold runs_to; by rewrite Hrun|].
      footprint_facts.
Qed.

End Footprint.

(** ** The group handler, case by case *)

Section GroupCases.
Context {ops : StrOps}.

(** What the generation path of [handle_group_message] does with a text. *)
Lemma group_routed (u : update) (c : context) (w : world) (t : string) :
  routed_to_generation u c t →
  handle_group_message u c w
  = (Ret tt,
     sent w (let prompt := strip (replace t ("@" +:+ bot_username c) "") in
             if decide (prompt = "") then [Reply "Yes? How can I help you?"]
             else relay "❌ Sorry, I encountered an error: " prompt (model w prompt))).
Proof.
  intros (Ht & Hfrom & Hrouted). cbv zeta.
  set (prompt := strip (replace t ("@" +:+ bot_username c) "")).
  assert (Hgo : handle_group_message u c w
    = (if decide (prompt = "") then reply_text "Yes? How can I help you?"
       else try_except
              (response ← generate_content prompt; reply_text response)
              (λ e, logger_error ("Gemini API error: " +:+ str_exn e);;
                    reply_text ("❌ Sorry, I encountered an error: " +:+ str_exn e))) w).
  { unfold handle_group_message. rewrite Ht.
    destruct Hrouted as [Hm | Hr].
    - destruct (decide (t = "")) as [-> | _]; [done|]. rewrite Hm.
      destruct (reply_to_message (update_message u)) as [[sender|]|]; done.
    - rewrite Hr. unfold mbind at 1, Py_bind at 1, mret at 1, Py_ret at 1.
      rewrite bool_decide_eq_true_2 by done.
      rewrite orb_true_r. done. }
  rewrite Hgo. destruct (decide _); [done|]. apply generate_and_relay.
Qed.

(** The four ways a group message can go. *)
Lemma group_cases (u : update) (c : context) (w : world) :
  let m := update_message u in
  (handle_group_message u c w = (Ret tt, w)
   ∧ (∀ t, text m = Some t → contains ("@" +:+ bot_username c) t = false)
   ∧ reply_to_message m ≠ Some None
   ∧ reply_to_message m ≠ Some (Some (bot_id c)))
  ∨ (∃ e, handle_group_message u c w = (Raise (AttributeError e), w)
          ∧ reply_to_message m = Some None)
  ∨ (∃ e, handle_group_message u c w = (Raise (AttributeError e), w)
          ∧ text m = None ∧ reply_to_message m = Some (Some (bot_id c)))
  ∨ (∃ t, routed_to_generation u c t).
Proof.
  cbv zeta.
  destruct (reply_to_message (update_message u)) as [[sender|]|] eqn:Hr.
  - destruct (decide (sender = bot_id c)) as [-> | Hne].
    + destruct (text (update_message u)) as [t|] eqn:Ht.
      * do 3 right. exists t. split; [done|]. split; [by rewrite Hr|].
        right. by rewrite Hr.
      * right. right. left. eexists. split; [|done].
        unfold handle_group_message. rewrite Ht, Hr. cbn.
        rewrite bool_decide_eq_true_2 by done. reflexivity.
    + destruct (text (update_message u)) as [t|] eqn:Ht.
      * destruct (contains ("@" +:+ bot_username c) t) eqn:Hm.
        -- do 3 right. exists t. split; [done|]. split; [by rewrite Hr|]. by left.
        -- left. split; [|split; [by intros ? [= <-] | split; congruence]].
           unfold handle_group_message. rewrite Ht, Hr, Hm. cbn.
           rewrite bool_decide_eq_false_2 by done. by destruct (decide _).
      * left. split; [|split; [done | split; congruence]].
        unfold handle_group_message. rewrite Ht, Hr. cbn.
        by rewrite bool_decide_eq_false_2.
  - right. left. eexists. split; [|done].
    unfold handle_group_message. rewrite Hr. reflexivity.
  - destruct (text (update_message u)) as [t|] eqn:Ht.
    + destruct (contains ("@" +:+ bot_username c) t) eqn:Hm.
      * do 3 right. exists t. split; [done|]. split; [by rewrite Hr|]. by left.
      * left. split; [|split; [by intros ? [= <-] | split; congruence]].
        unfold handle_group_message. rewrite Ht, Hr, Hm. cbn.
        by destruct (decide _).
    + left. split; [|split; [done | split; congruence]].
      unfold handle_group_message. rewrite Ht, Hr. reflexivity.
Qed.

End GroupCases.

(** ** What the handlers never do *)

Lemma replies_app es es' : replies (es ++ es') = (replies es ++ replies es')%list.
Proof. apply omap_app. Qed.

Lemma generator_calls_app es es' :
  generator_calls (es ++ es') = (generator_calls es ++ generator_calls es')%list.
Proof. apply omap_app. Qed.

Lemma relay_replies apology prompt outcome :
  length (replies (relay apology prompt outcome)) = 1.
Proof. by destruct outcome. Qed.

Section Never.
Context {ops : StrOps}.



(** X3.  Among the commands only [ask] reaches the model: the games, the
    trivia and the two help texts leave the list of prompts sent to the model
    as it was, whatever their arguments. *)
Theorem only_ask_calls_model name h (u : update) (c : context) (w : world) :
  (name, h) ∈ command_handlers → name ≠ "ask" →
  generator_calls (trace (h u c w).2) = generator_calls (trace w).
Proof.
  intros Hh Hname.
  destruct (command_footprint name h u c w Hh)
    as (gs' & k & es & Hrun & _ & _ & _ & _ & _ & Hnone).
  unfold runs_to in Hrun. rewrite Hrun. cbn.
  by rewrite generator_calls_app, (Hnone Hname), app_nil_r.
Qed.

(** X4.  Only [trivia] writes to the store: every other command, and the
    handler of group messages on every path, the raising ones included,
    leaves [game_state] as it is. *)
Theorem only_trivia_writes_store h (u : update) (c : context) (w : world) :
  (h = handle_group_message
   ∨ ∃ name, (name, h) ∈ command_handlers ∧ name ≠ "trivia") →
  game_state (h u c w).2 = game_state w.
Proof.
  intros [-> | (name & Hh & Hname)]; [apply keeps_store_group|].
  destruct (command_footprint name h u c w Hh) as (gs' & k & es & Hrun & Hgs & _).
  unfold runs_to in Hrun. rewrite Hrun. cbn. by apply Hgs.
Qed.

(** X5.  A command uses at most one draw of the random source, and [start],
    [help] and [ask] use none; the model and the random source themselves are
    handed on unchanged. *)
Theorem commands_draw_at_most_once name h (u : update) (c : context) (w : world) :
  (name, h) ∈ command_handlers →
  let w' := (h u c w).2 in
  (draws w ≤ draws w' ≤ S (draws w))%nat
  ∧ (name ∈ ["start"; "help"; "ask"] → draws w' = draws w)
  ∧ model w' = model w ∧ entropy w' = entropy w.
Proof.
  intros Hh. cbv zeta.
  destruct (command_footprint name h u c w Hh)
    as (gs' & k & es & Hrun & _ & Hk & Hnone & _).
  unfold runs_to in Hrun. rewrite Hrun. cbn.
  split; [lia|]. split; [|done]. intros Hn. by rewrite (Hnone Hn).
Qed.


(** X7.  The handler of group messages sends at most one reply and calls the
    model at most once, and never with an empty prompt. *)
Theorem group_message_prompt_not_empty (u : update) (c : context) (w : world) :
  ∃ es, (handle_group_message u c w).2 = sent w es
        ∧ (length (replies es) ≤ 1)%nat
        ∧ (generator_calls es = []
           ∨ ∃ prompt, prompt ≠ "" ∧ generator_calls es = [prompt]).
Proof.
  assert (Hw : sent w [] = w) by (destruct w; unfold sent; cbn; by rewrite app_nil_r).
  destruct (group_cases u c w)
    as [(Hrun & _) | [(e & Hrun & _) | [(e & Hrun & _) | (t & Hrouted)]]].
  1-3: exists []; rewrite Hrun; cbn; rewrite Hw; auto.
  rewrite (group_routed u c w t Hrouted). cbn.
  destruct (decide _) as [Hempty | Hprompt].
  - eexists. split; [reflexivity|]. cbn. auto.
  - eexists. split; [reflexivity|].
    rewrite relay_replies, relay_generator_calls. split; [done|]. right. eauto.
Qed.

End Never.

(** ** Sessions across conversations and runs *)

Section Sessions.
Context {ops : StrOps}.

(** X8.  [trivia] in one conversation never touches the entry of another:
    asking or answering in chat [c] leaves every other chat's pending
    question, or its absence, as it was. *)
Theorem trivia_other_chats_untouched (u : update) (c : context) (w : world) (k : Z) :
  k ≠ effective_chat_id u →
  game_state (trivia u c w).2 !! k = game_state w !! k.
Proof.
  intros Hk.
  destruct (trivia_cases u c w) as [(q & a & _ & _ & ->) | (d & a & _ & _ & _ & ->)];
    cbn; by rewrite lookup_insert_ne.
Qed.

Lemma trivia_catalog_sessions (u : update) (c : context) (w : world) :
  catalog_sessions (game_state w) → catalog_sessions (game_state (trivia u c w).2).
Proof.
  intros Hs k d'.
  destruct (trivia_cases u c w) as [(q & a & Hq & _ & ->) | (d & a & Hd & Ha & _ & ->)];
    cbn; (destruct (decide (effective_chat_id u = k)) as [-> | Hne];
          [rewrite lookup_insert_eq | rewrite lookup_insert_ne by done; apply Hs]).
  - intros [= <-]. right. exists q, a. split; [|done].
    by eapply list_elem_of_lookup_2.
  - intros [= <-]. left.
    destruct (Hs _ _ Hd) as [-> | (q' & a' & _ & ->)]; [done|].
    apply delete_singleton_eq.
Qed.

Lemma reachable_catalog_sessions (w : world) :
  reachable w → catalog_sessions (game_state w).
Proof.
  induction 1 as [m e n | w name h u c Hw IH Hh | w u c Hw IH | w m e Hw IH].
  - intros k d. cbn. by rewrite lookup_empty.
  - destruct (command_keeps_or_trivia _ _ Hh) as [-> | Hkeep].
    + by apply trivia_catalog_sessions.
    + by rewrite Hkeep.
  - by rewrite keeps_store_group.
  - done.
Qed.

(** X9.  In every state the bot can reach, the answer a conversation is
    waiting for is the answer of a question of the catalog: nothing a user
    sends, and nothing the model returns, ever ends up in the store. *)
Theorem reachable_answers_from_catalog (w : world) (chat_id : Z) (a : string) :
  reachable w → awaiting_answer (game_state w) chat_id a →
  ∃ q, (q, a) ∈ questions.
Proof.
  intros Hreach (d & Hd & Ha).
  destruct (reachable_catalog_sessions w Hreach _ _ Hd) as [-> | (q & a' & Hq & ->)].
  - by rewrite lookup_empty in Ha.
  - rewrite lookup_singleton_eq in Ha. injection Ha as <-. eauto.
Qed.

(** X10.  A question gets one attempt.  Once an answer has been submitted,
    right or wrong, the next [trivia] with an answer does not check it
    against the old question: it asks a new question and stores its answer. *)
Theorem trivia_one_attempt (u : update) (c c' : context) (w : world) (a : string) :
  awaiting_answer (game_state w) (effective_chat_id u) a →
  args c ≠ [] →
  let w1 := (trivia u c w).2 in
  ∃ q a', questions !! next_draw w1 8 = Some (q, a')
    ∧ trace (trivia u c' w1).2 = (trace w1 ++ [Reply (question_message q)])%list
    ∧ awaiting_answer (game_state (trivia u c' w1).2) (effective_chat_id u) a'.
Proof.
  intros (d & Hd & Ha) Hargs. cbv zeta.
  assert (Hidle : idle (game_state (trivia u c w).2) (effective_chat_id u)).
  { rewrite (trivia_submit u c w d a) by done. cbn.
    right. exists (delete "trivia_answer" d).
    by rewrite lookup_insert_eq, lookup_delete_eq. }
  rewrite (trivia_idle u c' _ Hidle).
  destruct (new_question_run (effective_chat_id u) (trivia u c w).2)
    as (q & a' & Hq & ->).
  exists q, a'. split; [done|]. split; [done|]. cbn.
  exists {["trivia_answer" := a']}.
  by rewrite lookup_insert_eq, lookup_singleton_eq.
Qed.

(** X11.  A reply to the bot that does not mention it is forwarded as it is,
    stripped: nothing is cut out of the text.  If the stripped text is empty
    the canned question is sent instead of a call of the model. *)
Theorem reply_without_mention_forwards_text
    (u : update) (c : context) (w : world) (t : string) :
  text (update_message u) = Some t →
  contains ("@" +:+ bot_username c) t = false →
  reply_to_message (update_message u) = Some (Some (bot_id c)) →
  handle_group_message u c w
  = (Ret tt,
     sent w (if decide (strip t = "") then [Reply "Yes? How can I help you?"]
             else relay "❌ Sorry, I encountered an error: " (strip t)
                        (model w (strip t)))).
Proof.
  intros Ht Hm Hr.
  assert (Hrouted : routed_to_generation u c t).
  { split; [done|]. split; [by rewrite Hr | by right]. }
  rewrite (group_routed u c w t Hrouted). cbv zeta.
  change ("@" +:+ bot_username c)
    with (String (Ascii.ascii_of_nat 64) (bot_username c)) in *.
  by rewrite (replace_absent _ _ _ _ Hm).
Qed.

End Sessions.

(** ** On ASCII text *)

Lemma is_space_lower c : is_space (lower_ascii c) = is_space c.
Proof. destruct c as [[] [] [] [] [] [] [] []]; reflexivity. Qed.

Lemma lstrip_lower s : ascii_lower (lstrip s) = lstrip (ascii_lower s).
Proof.
  induction s as [|c s IH]; [done|]. cbn [lstrip ascii_lower].
  rewrite is_space_lower. by destruct (is_space c).
Qed.

Lemma rstrip_lower s : ascii_lower (rstrip s) = rstrip (ascii_lower s).
Proof.
  induction s as [|c s IH]; [done|]. cbn [rstrip ascii_lower].
  rewrite <- IH, is_space_lower.
  destruct (rstrip s); cbn [ascii_lower]; [by destruct (is_space c) | done].
Qed.

(** Stripping and lowercasing commute. *)
Lemma strip_lower s : ascii_lower (ascii_strip s) = ascii_strip (ascii_lower s).
Proof. unfold ascii_strip. by rewrite rstrip_lower, lstrip_lower. Qed.

Lemma lstrip_all_space s : all_space s = true → lstrip s = "".
Proof.
  induction s as [|c s IH]; [done|]. cbn [all_space lstrip].
  intros [Hc Hs]%andb_true_iff. rewrite Hc. by apply IH.
Qed.

Lemma rstrip_all_space s : all_space s = true → rstrip s = "".
Proof.
  induction s as [|c s IH]; [done|]. cbn [all_space rstrip].
  intros [Hc Hs]%andb_true_iff. by rewrite (IH Hs), Hc.
Qed.

Lemma lstrip_after_space pad s : all_space pad = true → lstrip (pad +:+ s) = lstrip s.
Proof.
  induction pad as [|c pad IH]; [done|]. cbn [all_space].
  intros [Hc Hs]%andb_true_iff.
  change (String c pad +:+ s) with (String c (pad +:+ s)).
  cbn [lstrip]. rewrite Hc. by apply IH.
Qed.

Lemma rstrip_before_space s pad : all_space pad = true → rstrip (s +:+ pad) = rstrip s.
Proof.
  intros Hpad. induction s as [|c s IH]; [by apply rstrip_all_space|].
  change (String c s +:+ pad) with (String c (s +:+ pad)).
  cbn [rstrip]. by rewrite IH.
Qed.

(** White space around a text does not change what is left after
    stripping. *)
Lemma strip_padding pad1 s pad2 :
  all_space pad1 = true → all_space pad2 = true →
  ascii_strip (pad1 +:+ s +:+ pad2) = ascii_strip s.
Proof.
  intros H1 H2. unfold ascii_strip. rewrite lstrip_after_space by done.
  induction s as [|c s IH].
  - cbn [String.append lstrip]. by rewrite lstrip_all_space, rstrip_all_space.
  - change (String c s +:+ pad2) with (String c (s +:+ pad2)). cbn [lstrip].
    destruct (is_space c); [done|].
    change (String c (s +:+ pad2)) with (String c s +:+ pad2).
    by apply rstrip_before_space.
Qed.

Lemma lower_app s t : ascii_lower (s +:+ t) = ascii_lower s +:+ ascii_lower t.
Proof.
  induction s as [|c s IH]; [done|].
  change (String c s +:+ t) with (String c (s +:+ t)).
  cbn [ascii_lower]. by rewrite IH.
Qed.

Lemma lower_space c : is_space c = true → lower_ascii c = c.
Proof. destruct c as [[] [] [] [] [] [] [] []]; cbn; done. Qed.

Lemma lower_all_space s : all_space s = true → ascii_lower s = s.
Proof.
  induction s as [|c s IH]; [done|]. cbn [all_space ascii_lower].
  intros [Hc Hs]%andb_true_iff. by rewrite (lower_space _ Hc), (IH Hs).
Qed.

Lemma all_space_app s t : all_space s = true → all_space t = true → all_space (s +:+ t) = true.
Proof.
  intros Hs Ht. induction s as [|c s IH]; [done|].
  change (String c s +:+ t) with (String c (s +:+ t)). cbn [all_space] in *.
  apply andb_true_iff in Hs as [Hc Hs]. rewrite Hc. by apply IH.
Qed.

Lemma all_space_no_mention a name s :
  is_space a = false → all_space s = true → contains (String a name) s = false.
Proof.
  intros Ha. induction s as [|c s IH]; [done|]. cbn [all_space contains].
  intros [Hc Hs]%andb_true_iff. rewrite (IH Hs), orb_false_r.
  cbn. destruct (Ascii.ascii_dec a c) as [<- | _]; [congruence | done].
Qed.

Lemma replace_after_space a name new pre s :
  is_space a = false → all_space pre = true →
  replace (pre +:+ s) (String a name) new = pre +:+ replace s (String a name) new.
Proof.
  intros Ha. induction pre as [|c pre IH]; [done|]. cbn [all_space].
  intros [Hc Hs]%andb_true_iff.
  change (String c pre +:+ s) with (String c (pre +:+ s)).
  rewrite replace_keep, (IH Hs); [done|].
  cbn. destruct (Ascii.ascii_dec a c) as [<- | _]; [congruence | done].
Qed.

(** X12.  A group message that is nothing but the mention, with any ASCII
    white space around it, gets the canned question and no call of the
    model. *)
Theorem mention_alone_gets_canned_reply
    (u : update) (c : context) (w : world) (pre post : string) :
  text (update_message u) = Some (pre +:+ ("@" +:+ bot_username c) +:+ post) →
  all_space pre = true → all_space post = true →
  reply_to_message (update_message u) ≠ Some None →
  @handle_group_message ascii_ops u c w
  = (Ret tt, sent w [Reply "Yes? How can I help you?"]).
Proof.
  intros Ht Hpre Hpost Hfrom.
  rewrite (@group_routed ascii_ops u c w _
             (conj Ht (conj Hfrom (or_introl (contains_app_mid _ _ _))))).
  cbv zeta.
  change ("@" +:+ bot_username c)
    with (String (Ascii.ascii_of_nat 64) (bot_username c)).
  rewrite replace_after_space, replace_occurrence by done.
  rewrite (replace_absent _ _ _ _
             (all_space_no_mention (Ascii.ascii_of_nat 64) (bot_username c) post
                                   eq_refl Hpost)).
  change ("" +:+ post) with post.
  change (@strip ascii_ops) with ascii_strip. unfold ascii_strip.
  by rewrite (lstrip_all_space _ (all_space_app _ _ Hpre Hpost)).
Qed.

(** The answers of the catalog have no white space at either end. *)
Lemma catalog_answers_stripped q a :
  (q, a) ∈ questions → ascii_strip (ascii_lower a) = ascii_lower a ∧ a ≠ "".
Proof.
  unfold questions. rewrite !elem_of_cons, elem_of_nil.
  intros [H|[H|[H|[H|[H|[H|[H|[H|[]]]]]]]]]; injection H as -> ->; done.
Qed.

(** X13.  Asking and answering compose: after a request for a question, an
    answer that is the catalog's answer to the question asked, in any mix of
    ASCII upper and lower case and with any white space around it, is told
    "Correct", and the conversation is idle again. *)
Theorem trivia_catalog_answer_accepted (u : update) (c1 c2 : context) (w : world) :
  args c1 = [] →
  let w1 := (@trivia ascii_ops u c1 w).2 in
  ∃ q a, questions !! next_draw w 8 = Some (q, a)
    ∧ trace w1 = (trace w ++ [Reply (question_message q)])%list
    ∧ (∀ pad1 x pad2,
       join " " (args c2) = pad1 +:+ x +:+ pad2 →
       all_space pad1 = true → all_space pad2 = true →
       ascii_lower x = ascii_lower a →
       trace (@trivia ascii_ops u c2 w1).2
       = (trace w1 ++ [Reply "✅ Correct! Well done! 🎉";
                       Reply "Type /trivia for another question!"])%list
       ∧ idle (game_state (@trivia ascii_ops u c2 w1).2) (effective_chat_id u)).
Proof.
  intros Hargs. cbv zeta.
  rewrite (@trivia_no_args ascii_ops u c1 w Hargs).
  destruct (new_question_run (effective_chat_id u) w) as (q & a & Hq & ->).
  exists q, a. split; [done|]. split; [done|].
  intros pad1 x pad2 Hjoin Hpad1 Hpad2 Hx. cbn [snd].
  destruct (catalog_answers_stripped q a) as [Hstrip Hne];
    [by eapply list_elem_of_lookup_2|].
  assert (Hanswer : ascii_lower (ascii_strip (join " " (args c2))) = ascii_lower a).
  { rewrite Hjoin, strip_lower, !lower_app, Hx.
    rewrite (lower_all_space pad1), (lower_all_space pad2) by done.
    rewrite strip_padding by done. exact Hstrip. }
  assert (Hc2 : args c2 ≠ []).
  { intros Hnil. rewrite Hnil in Hanswer. cbn in Hanswer.
    destruct a; [done | discriminate]. }
  rewrite (@trivia_submit ascii_ops u c2 _ {["trivia_answer" := a]} a);
    [|cbn; by rewrite lookup_insert_eq | by rewrite lookup_singleton_eq | done].
  cbn. split.
  - unfold verdict_message. cbn [lower strip ascii_ops]. by rewrite decide_True.
  - right. eexists. rewrite lookup_insert_eq. split; [done|].
    by rewrite lookup_delete_eq.
Qed.

(** ** The games *)

Section Games.
Context {ops : StrOps}.

(** X14.  Rock, paper, scissors is even: for a valid choice of the user, the
    three choices the bot can draw are one that ties, one that the user
    beats and one that beats the user, and the reply says so in each case. *)
Theorem rock_paper_scissors_even (u : update) (c : context) (arg0 : string) (rest : list string) :
  args c = arg0 :: rest → lower arg0 ∈ choices →
  ∃ ties wins loses,
    [ties; wins; loses] ≡ₚ choices
    ∧ ∀ w bot_choice verdict,
        choices !! next_draw w 3 = Some bot_choice →
        (bot_choice, verdict)
          ∈ [(ties, "It's a tie! 🤝"); (wins, "You win! 🎉"); (loses, "I win! 🤖")] →
        ∃ user_emoji bot_emoji,
          rock_paper_scissors u c w
          = (Ret tt, sent (drawn w)
                       [Reply (rps_message user_emoji (lower arg0)
                                           bot_emoji bot_choice verdict)]).
Proof.
  intros Hargs Hvalid.
  assert (Hpick : ∃ ties wins loses,
             [ties; wins; loses] ≡ₚ choices
             ∧ lower arg0 = ties ∧ beats (lower arg0) wins ∧ beats loses (lower arg0)).
  { destruct (choices_cases _ Hvalid) as [-> | [-> | ->]].
    - exists "rock", "scissors", "paper". split; [|by auto using beats].
      apply perm_skip, perm_swap.
    - exists "paper", "rock", "scissors". split; [|by auto using beats].
      apply perm_swap.
    - exists "scissors", "paper", "rock". split; [|by auto using beats].
      etrans; [apply perm_swap|]. etrans; [apply perm_skip, perm_swap|].
      apply perm_swap. }
  destruct Hpick as (ties & wins & loses & Hperm & Htie & Hwin & Hlose).
  exists ties, wins, loses. split; [done|].
  intros w bot_choice verdict Hbot Hin.
  destruct (rps_valid u c w arg0 rest bot_choice Hargs Hvalid Hbot)
    as (ue & be & v & _ & _ & Hrun & Hv1 & Hv2 & Hv3).
  exists ue, be.
  assert (Hv : v = verdict).
  { rewrite !elem_of_cons, elem_of_nil in Hin.
    destruct Hin as [[= -> ->] | [[= -> ->] | [[= -> ->] | []]]]; auto. }
  by rewrite <- Hv.
Qed.

End Games.

(** X15.  Every face of the dice can come up, the six included: for each
    number from 1 to 6 the draw one below it makes [roll_dice] show that
    number with its glyph. *)
Theorem dice_every_face (u : update) (c : context) (w : world) (n : Z) :
  (1 ≤ n ≤ 6)%Z →
  next_draw w 6 = Z.to_nat (n - 1) →
  ∃ glyph, dice_faces !! Z.to_nat (n - 1) = Some glyph
    ∧ roll_dice u c w
      = (Ret tt, sent (drawn w)
                   [Reply ("🎲 You rolled: " +:+ glyph +:+ " (" +:+ pretty n +:+ ")")]).
Proof.
  intros Hn Hdraw.
  unfold roll_dice, random_randint.
  unfold mbind, Py_bind, randbelow, mret, Py_ret. cbn beta iota.
  change (Z.to_nat (6 - 1 + 1)) with 6. fold (next_draw w 6). rewrite Hdraw.
  assert (Hcases : (n = 1 ∨ n = 2 ∨ n = 3 ∨ n = 4 ∨ n = 5 ∨ n = 6)%Z) by lia.
  destruct Hcases as [-> | [-> | [-> | [-> | [-> | ->]]]]];
    (eexists; split; reflexivity).
Qed.

(** ** Start-up *)

Section Startup.
Context {ops : StrOps}.

(** X16.  [main] starts polling exactly when both secrets are set and not
    empty, and then with the token it was given and the eight commands under
    distinct names.  A secret that is set to the empty string counts as
    missing, and when both are missing the error is the one about the
    Telegram token. *)
Theorem main_starts_iff (TELEGRAM_TOKEN GEMINI_API_KEY : option string) :
  ((∃ token commands messages info,
      main TELEGRAM_TOKEN GEMINI_API_KEY = Polling token commands messages info)
   ↔ ∃ token key, TELEGRAM_TOKEN = Some token ∧ token ≠ ""
                  ∧ GEMINI_API_KEY = Some key ∧ key ≠ "")
  ∧ (∀ token commands messages info,
       main TELEGRAM_TOKEN GEMINI_API_KEY = Polling token commands messages info →
       TELEGRAM_TOKEN = Some token
       ∧ commands.*1 = ["start"; "help"; "ask"; "dice"; "flip"; "8ball"; "rps"; "trivia"]
       ∧ NoDup commands.*1)
  ∧ (TELEGRAM_TOKEN = None ∨ TELEGRAM_TOKEN = Some "" →
       main TELEGRAM_TOKEN GEMINI_API_KEY
       = Refused "TELEGRAM_BOT_TOKEN not found in environment variables!").
Proof.
  assert (Hnames : NoDup (command_handlers.*1)).
  { cbn. repeat (apply NoDup_cons; split;
          [rewrite ?elem_of_cons, elem_of_nil; intros Hin;
           repeat (destruct Hin as [Hin | Hin]; [discriminate|]); done|]).
    apply NoDup_nil_2. }
  unfold main.
  destruct TELEGRAM_TOKEN as [[|a token]|], GEMINI_API_KEY as [[|b key]|];
    cbn [falsy default]; (split; [split|split]).
  all: try (intros (tk & cm & ms & inf & H);
            first [ discriminate H
                  | eexists _, _; split; [reflexivity|]; split; [discriminate|];
                    split; [reflexivity | discriminate] ]).
  all: try (intros (tk & ky & Ht & Hne & Hk & Hne');
            first [ discriminate Ht | discriminate Hk
                  | injection Ht as <-; by destruct Hne
                  | injection Hk as <-; by destruct Hne'
                  | eexists _, _, _, _; reflexivity ]).
  all: try (intros tk cm ms inf H;
            first [ discriminate H
                  | injection H as <- <- <- <-; split; [reflexivity|];
                    split; [reflexivity | exact Hnames] ]).
  all: intros [H | H]; first [reflexivity | discriminate H].
Qed.

End Startup.

(** ** Concrete instances *)

Lemma trivia_registered : ("trivia", @trivia ascii_ops) ∈ @command_handlers ascii_ops.
Proof. unfold command_handlers. rewrite !elem_of_cons. do 7 right. by left. Qed.


Lemma ask_registered : ("ask", ask_gemini) ∈ @command_handlers ascii_ops.
Proof. unfold command_handlers. rewrite !elem_of_cons. do 2 right. by left. Qed.



Lemma only_ask_calls_model_witness :
  "trivia" ≠ "ask"
  ∧ generator_calls
      (trace (@trivia ascii_ops chat (with_args ["tell"; "me"]) (fresh echo 3)).2)
    = generator_calls (trace (fresh echo 3)).
Proof.
  assert (H : "trivia" ≠ "ask") by discriminate.
  split; [exact H|].
  exact (@only_ask_calls_model ascii_ops "trivia" _ chat (with_args ["tell"; "me"])
           (fresh echo 3) trivia_registered H).
Defined.

Lemma only_trivia_writes_store_witness :
  let w := (@trivia ascii_ops chat (with_args []) (fresh echo 3)).2 in
  game_state (ask_gemini chat (with_args ["Why?"]) w).2 = game_state w.
Proof.
  cbv zeta.
  apply (@only_trivia_writes_store ascii_ops ask_gemini chat (with_args ["Why?"])).
  right. exists "ask". split; [exact ask_registered | discriminate].
Defined.

Lemma commands_draw_at_most_once_witness :
  draws (ask_gemini chat (with_args ["Why?"]) (fresh echo 3)).2 = draws (fresh echo 3).
Proof.
  apply (@commands_draw_at_most_once ascii_ops "ask" _ chat (with_args ["Why?"])
           (fresh echo 3) ask_registered).
  rewrite !elem_of_cons. do 2 right. by left.
Defined.


Lemma trivia_other_chats_untouched_witness :
  let w := stored {[8%Z := {["trivia_answer" := "Au"]}]} (fresh echo 0) in
  8%Z ≠ effective_chat_id chat
  ∧ game_state (@trivia ascii_ops chat (with_args ["Au"]) w).2 !! 8%Z
    = Some {["trivia_answer" := "Au"]}.
Proof.
  cbv zeta. assert (H : 8%Z ≠ effective_chat_id chat) by discriminate.
  split; [exact H|].
  rewrite (@trivia_other_chats_untouched ascii_ops chat (with_args ["Au"]) _ 8 H).
  reflexivity.
Defined.

Lemma reachable_answers_from_catalog_witness :
  let w := (@trivia ascii_ops chat (with_args ["hello"]) (fresh echo 6)).2 in
  awaiting_answer (game_state w) 7 "Au" ∧ ∃ q, (q, "Au") ∈ questions.
Proof.
  cbv zeta.
  set (w := (@trivia ascii_ops chat (with_args ["hello"]) (fresh echo 6)).2).
  assert (Hreach : @reachable ascii_ops w).
  { apply (@reachable_command ascii_ops _ "trivia" trivia);
      [apply reachable_start | exact trivia_registered]. }
  assert (Ha : awaiting_answer (game_state w) 7 "Au").
  { exists {["trivia_answer" := "Au"]}. split; reflexivity. }
  split; [exact Ha|].
  exact (@reachable_answers_from_catalog ascii_ops w 7 "Au" Hreach Ha).
Defined.

Lemma trivia_one_attempt_witness :
  let w := stored {[7%Z := {["trivia_answer" := "Paris"]}]} (fresh echo 1) in
  let w1 := (@trivia ascii_ops chat (with_args ["London"]) w).2 in
  trace (@trivia ascii_ops chat (with_args ["Paris"]) w1).2
  = (trace w1 ++ [Reply (question_message "What is 2 + 2?")])%list.
Proof.
  cbv zeta.
  set (w := stored {[7%Z := {["trivia_answer" := "Paris"]}]} (fresh echo 1)).
  assert (Ha : awaiting_answer (game_state w) (effective_chat_id chat) "Paris").
  { exists {["trivia_answer" := "Paris"]}. split; reflexivity. }
  assert (Hargs : args (with_args ["London"]) ≠ []) by discriminate.
  destruct (@trivia_one_attempt ascii_ops chat (with_args ["London"])
              (with_args ["Paris"]) w "Paris" Ha Hargs)
    as (q & a' & Hq & Htrace & _).
  injection Hq as <- <-. exact Htrace.
Defined.

Lemma reply_without_mention_forwards_text_witness :
  @handle_group_message ascii_ops (group_text " and you? " (Some (Some 1%Z)))
     (with_args []) (fresh echo 0)
  = (Ret tt, sent (fresh echo 0) [Generate "and you?"; Reply "echo: and you?"]).
Proof.
  rewrite (@reply_without_mention_forwards_text ascii_ops
             (group_text " and you? " (Some (Some 1%Z))) (with_args []) (fresh echo 0)
             " and you? " eq_refl eq_refl eq_refl).
  reflexivity.
Defined.

Lemma mention_alone_gets_canned_reply_witness :
  @handle_group_message ascii_ops (group_text "  @bot " None) (with_args [])
     (fresh failing 0)
  = (Ret tt, sent (fresh failing 0) [Reply "Yes? How can I help you?"]).
Proof.
  apply (mention_alone_gets_canned_reply (group_text "  @bot " None) (with_args [])
           (fresh failing 0) "  " " "); [reflexivity | reflexivity | reflexivity |].
  discriminate.
Defined.

Lemma trivia_catalog_answer_accepted_witness :
  let w1 := (@trivia ascii_ops chat (with_args []) (fresh echo 3)).2 in
  trace (@trivia ascii_ops chat (with_args ["LEONARDO"; "da"; "vinci"]) w1).2
  = (trace w1 ++ [Reply "✅ Correct! Well done! 🎉";
                  Reply "Type /trivia for another question!"])%list.
Proof.
  cbv zeta.
  destruct (trivia_catalog_answer_accepted chat (with_args [])
              (with_args ["LEONARDO"; "da"; "vinci"]) (fresh echo 3) eq_refl)
    as (q & a & Hq & _ & Hok).
  injection Hq as <- <-.
  exact (proj1 (Hok "" "LEONARDO da vinci" "" eq_refl eq_refl eq_refl eq_refl)).
Defined.

Lemma rock_paper_scissors_even_witness :
  @lower ascii_ops "PAPER" ∈ choices
  ∧ ∃ ties wins loses, [ties; wins; loses] ≡ₚ choices.
Proof.
  assert (Hvalid : @lower ascii_ops "PAPER" ∈ choices).
  { unfold choices. rewrite !elem_of_cons. right. left. reflexivity. }
  split; [exact Hvalid|].
  destruct (@rock_paper_scissors_even ascii_ops chat (with_args ["PAPER"]) "PAPER" []
              eq_refl Hvalid) as (ties & wins & loses & Hperm & _).
  exists ties, wins, loses. exact Hperm.
Defined.

Lemma dice_every_face_witness :
  ∃ glyph, dice_faces !! 5 = Some glyph
    ∧ roll_dice chat (with_args []) (fresh echo 11)
      = (Ret tt, sent (drawn (fresh echo 11))
                   [Reply ("🎲 You rolled: " +:+ glyph +:+ " (6)")]).
Proof.
  apply (dice_every_face chat (with_args []) (fresh echo 11) 6); [lia | reflexivity].
Defined.

Lemma main_starts_iff_witness :
  @main ascii_ops (Some "") (Some "key")
  = Refused "TELEGRAM_BOT_TOKEN not found in environment variables!".
Proof.
  apply (@main_starts_iff ascii_ops (Some "") (Some "key")). right. reflexivity.
Defined.
